(** * Minesweeper knowledge engine: a shallow embedding of [minesweeper.py]

    The development follows the three classes of the program:
    - [Minesweeper]: the board, with [is_mine] and [nearby_mines];
    - [Sentence]: a set of cells together with a count of mines;
    - [MinesweeperAI]: the three cell sets and the list of sentences, with
      [mark_mine], [mark_safe], [add_knowledge], [update_knowledge],
      [infer_new_sentences], [make_safe_move] and [make_random_move].

    Python sets of cells are finite sets [gset (Z * Z)]; Python integers are
    [Z]; the knowledge base is a [list] (order and duplicates matter).
    Objects are mutated in place in the program; here every method takes the
    object and returns the updated one. *)

From Stdlib Require Import ZArith List Lia.
From Stdlib Require Import Ascii.
From stdpp Require Import base decidable option list gmap sets fin_sets.

Local Open Scope Z_scope.

(** A cell is a pair [(row, col)] of Python integers. *)
Abbreviation Cell := (Z * Z)%type.

(** [range(a, b)] over integers. *)
Definition range (a b : Z) : list Z :=
  seqZ a (b - a).

(** ** class Minesweeper *)
Module Minesweeper.

Record t := mk {
  height : Z;
  width : Z;
  board : list (list bool)
}.

(** [self.board[i][j]]; the program only indexes the board after the
    bounds test, and [__init__] builds it with [height] rows of [width]
    entries (see [wf]). *)
Definition board_at (g : t) (i j : Z) : bool :=
  match board g !! Z.to_nat i with
  | Some row => default false (row !! Z.to_nat j)
  | None => false
  end.

Definition wf (g : t) : Prop :=
  0 ≤ height g ∧ 0 ≤ width g ∧
  length (board g) = Z.to_nat (height g) ∧
  Forall (λ row, length row = Z.to_nat (width g)) (board g).

Definition is_mine (g : t) (cell : Cell) : bool :=
  let '(i, j) := cell in board_at g i j.

(** The body of the two nested loops of [nearby_mines] for the cell
    [(i, j)]. *)
Definition tally (g : t) (cell : Cell) (count : Z) (i j : Z) : Z :=
  if bool_decide ((i, j) = cell) then count
  else if (0 <=? i) && (i <? height g) && (0 <=? j) && (j <? width g)
       then (if board_at g i j then count + 1 else count)
       else count.

Definition nearby_mines (g : t) (cell : Cell) : Z :=
  fold_left (λ count i,
    fold_left (λ count j, tally g cell count i j)
      (range (cell.2 - 1) (cell.2 + 2)) count)
    (range (cell.1 - 1) (cell.1 + 2)) 0.

End Minesweeper.

(** ** class Sentence *)
Module Sentence.

Record t := mk {
  cells : gset Cell;
  count : Z
}.

(** [__eq__]: same cells and same count.  Finite sets are extensional, so
    this is equality of records. *)
#[global] Instance eq_dec : EqDecision t.
Proof. solve_decision. Defined.

Definition known_mines (self : t) : gset Cell :=
  if bool_decide (count self = Z.of_nat (size (cells self)))
     && negb (bool_decide (count self = 0))
  then cells self
  else ∅.

Definition known_safes (self : t) : gset Cell :=
  if bool_decide (count self = 0) then cells self else ∅.

Definition mark_mine (self : t) (cell : Cell) : t :=
  if bool_decide (cell ∈ cells self)
  then mk (cells self ∖ {[cell]}) (count self - 1)
  else self.

Definition mark_safe (self : t) (cell : Cell) : t :=
  if bool_decide (cell ∈ cells self)
  then mk (cells self ∖ {[cell]}) (count self)
  else self.

End Sentence.

Abbreviation Sentence := Sentence.t.

(** ** class MinesweeperAI *)
Module MinesweeperAI.

Record t := mk {
  height : Z;
  width : Z;
  moves_made : gset Cell;
  mines : gset Cell;
  safes : gset Cell;
  knowledge : list Sentence
}.

(** [__init__] *)
Definition init (height width : Z) : t := mk height width ∅ ∅ ∅ [].

Definition set_moves_made (self : t) (m : gset Cell) : t :=
  mk (height self) (width self) m (mines self) (safes self) (knowledge self).

Definition set_knowledge (self : t) (kb : list Sentence) : t :=
  mk (height self) (width self) (moves_made self) (mines self) (safes self) kb.

Definition mark_mine (self : t) (cell : Cell) : t :=
  mk (height self) (width self) (moves_made self)
     ({[cell]} ∪ mines self) (safes self)
     ((λ sentence, Sentence.mark_mine sentence cell) <$> knowledge self).

Definition mark_safe (self : t) (cell : Cell) : t :=
  mk (height self) (width self) (moves_made self)
     (mines self) ({[cell]} ∪ safes self)
     ((λ sentence, Sentence.mark_safe sentence cell) <$> knowledge self).

(** The two accumulators of the first [for] loop of [update_knowledge]. *)
Definition scan (kb : list Sentence) : gset Cell * gset Cell :=
  fold_left (λ '(safes, mines) sentence,
               (safes ∪ Sentence.known_safes sentence,
                mines ∪ Sentence.known_mines sentence))
            kb (∅, ∅).

(** One iteration of the [while] loop of [update_knowledge]: the state at
    the end of the body and the value of [knowledge_updated].  The two
    [for] loops over the local sets visit the cells in the order of
    [elements]. *)
Definition update_pass (self : t) : t * bool :=
  let '(safes, mines) := scan (knowledge self) in
  let self1 :=
    if bool_decide (safes ≠ ∅)
    then fold_left mark_safe (elements safes) self else self in
  let self2 :=
    if bool_decide (mines ≠ ∅)
    then fold_left mark_mine (elements mines) self1 else self1 in
  (set_knowledge self2
     (filter (λ sentence, Sentence.cells sentence ≠ ∅) (knowledge self2)),
   bool_decide (safes ≠ ∅) || bool_decide (mines ≠ ∅)).

(** The [while] loop, with a bound on the number of iterations; [None]
    when the bound is reached before the loop exits. *)
Fixpoint update_loop (fuel : nat) (self : t) : option t :=
  match fuel with
  | O => None
  | S fuel =>
      let '(self', knowledge_updated) := update_pass self in
      if knowledge_updated then update_loop fuel self' else Some self'
  end.

(** The number of cells over all sentences: the loop variant. *)
Definition total_cells (kb : list Sentence) : nat :=
  foldr (λ sentence n, (size (Sentence.cells sentence) + n)%nat) 0%nat kb.

(** [update_knowledge]: the loop run with a bound that always suffices
    (see [update_loop_terminates]). *)
Definition update_knowledge (self : t) : t :=
  default self (update_loop (S (total_cells (knowledge self))) self).

(** The body of the two nested loops of [infer_new_sentences] for one pair
    of sentences. *)
Definition infer_pair (new_knowledge : list Sentence)
    (sentence1 sentence2 : Sentence) : list Sentence :=
  if bool_decide (sentence1 = sentence2) then new_knowledge
  else if bool_decide (Sentence.cells sentence1 ⊆ Sentence.cells sentence2)
  then
    let new_cells := Sentence.cells sentence2 ∖ Sentence.cells sentence1 in
    let new_count := Sentence.count sentence2 - Sentence.count sentence1 in
    let new_sentence := Sentence.mk new_cells new_count in
    if bool_decide (new_sentence ∈ new_knowledge) then new_knowledge
    else new_knowledge ++ [new_sentence]
  else new_knowledge.

(** The list [new_knowledge] at the end of the two loops. *)
Definition inferred (kb : list Sentence) : list Sentence :=
  fold_left (λ new_knowledge sentence1,
    fold_left (λ new_knowledge sentence2,
                 infer_pair new_knowledge sentence1 sentence2)
              kb new_knowledge)
    kb [].

Definition infer_new_sentences (self : t) : t :=
  let new_knowledge := inferred (knowledge self) in
  set_knowledge self (knowledge self ++ new_knowledge).

(** The body of the neighbour loop of [add_knowledge] for one offset. *)
Definition visit (self : t) (row col : Z)
    (acc : gset Cell * Z) (drow dcol : Z) : gset Cell * Z :=
  let '(new_cells, known_mines_count) := acc in
  if (drow =? 0) && (dcol =? 0) then acc
  else
    let neighbor := (row + drow, col + dcol) in
    if (0 <=? neighbor.1) && (neighbor.1 <? height self)
       && (0 <=? neighbor.2) && (neighbor.2 <? width self)
    then
      if bool_decide (neighbor ∈ mines self)
      then (new_cells, known_mines_count + 1)
      else if bool_decide (neighbor ∉ safes self)
           then ({[neighbor]} ∪ new_cells, known_mines_count)
           else acc
    else acc.

(** [new_cells] and [known_mines_count] at the end of the neighbour loop. *)
Definition neighbor_scan (self : t) (cell : Cell) : gset Cell * Z :=
  let '(row, col) := cell in
  fold_left (λ acc drow,
    fold_left (λ acc dcol, visit self row col acc drow dcol)
              [-1; 0; 1] acc)
    [-1; 0; 1] (∅, 0).

(** Steps 1 to 3 of [add_knowledge]: the move, the safe cell and the new
    sentence. *)
Definition observe (self : t) (cell : Cell) (count : Z) : t :=
  let self := set_moves_made self ({[cell]} ∪ moves_made self) in
  let self := mark_safe self cell in
  let '(new_cells, known_mines_count) := neighbor_scan self cell in
  if bool_decide (new_cells ≠ ∅)
  then set_knowledge self
         (knowledge self ++ [Sentence.mk new_cells (count - known_mines_count)])
  else self.

Definition add_knowledge (self : t) (cell : Cell) (count : Z) : t :=
  let self := observe self cell count in
  let self := update_knowledge self in
  infer_new_sentences self.

(** [make_safe_move]: the first cell of [safes], in iteration order, that
    is not in [moves_made]. *)
Definition make_safe_move (self : t) : option Cell :=
  head (filter (λ move, move ∉ moves_made self) (elements (safes self))).

(** The list [choices] built by the two nested loops of
    [make_random_move]. *)
Definition choices (self : t) : list Cell :=
  fold_left (λ choices i,
    fold_left (λ choices j,
      if bool_decide ((i, j) ∉ moves_made self)
         && bool_decide ((i, j) ∉ mines self)
      then choices ++ [(i, j)] else choices)
      (range 0 (width self)) choices)
    (range 0 (height self)) [].

(** [random.choice(choices)] returns [choices[k]] for a random
    [k < len(choices)]; [rnd] is the number drawn. *)
Definition make_random_move (self : t) (rnd : nat) : option Cell :=
  let choices := choices self in
  match choices with
  | [] => None
  | _ => choices !! (rnd mod length choices)%nat
  end.

End MinesweeperAI.

Abbreviation AI := MinesweeperAI.t.

Import MinesweeperAI.

(** A sequence of [add_knowledge] calls. *)
Definition run (self : AI) (obs : list (Cell * Z)) : AI :=
  fold_left (λ self '(cell, count), add_knowledge self cell count) obs self.

(** The operations that change the state of the engine. *)
Inductive op :=
  | MarkMine (cell : Cell)
  | MarkSafe (cell : Cell)
  | AddKnowledge (cell : Cell) (count : Z)
  | UpdateKnowledge
  | InferNewSentences.

Definition apply_op (self : AI) (o : op) : AI :=
  match o with
  | MarkMine cell => mark_mine self cell
  | MarkSafe cell => mark_safe self cell
  | AddKnowledge cell count => add_knowledge self cell count
  | UpdateKnowledge => update_knowledge self
  | InferNewSentences => infer_new_sentences self
  end.

Definition run_ops (self : AI) (ops : list op) : AI :=
  fold_left apply_op ops self.

(** The cell lies on the grid of the engine. *)
Definition in_bounds (height width : Z) (cell : Cell) : Prop :=
  0 ≤ cell.1 < height ∧ 0 ≤ cell.2 < width.

(** [b] is [a] after steps that leave the grid and [moves_made] alone and
    only add to [mines] and [safes]. *)
Definition extends (a b : AI) : Prop :=
  height b = height a ∧ width b = width a ∧
  moves_made b = moves_made a ∧
  mines a ⊆ mines b ∧ safes a ⊆ safes b.

(** Every cell of every sentence of [kb] satisfies [P]. *)
Definition all_cells (P : Cell → Prop) (kb : list Sentence) : Prop :=
  Forall (λ s, ∀ c, c ∈ Sentence.cells s → P c) kb.

(** Every cell of every sentence lies on the grid. *)
Definition kb_in_bounds (self : AI) : Prop :=
  all_cells (in_bounds (height self) (width self)) (knowledge self).

(** A cell that [make_random_move] may choose: a cell of the grid that is
    neither in [moves_made] nor in [mines]. *)
Definition candidate (self : AI) (cell : Cell) : Prop :=
  in_bounds (height self) (width self) cell ∧
  cell ∉ moves_made self ∪ mines self.

(** ** The engine against a board *)

(** The number of mines of the board [g] among the cells of [X]. *)
Definition mine_count (g : Minesweeper.t) (X : gset Cell) : Z :=
  Z.of_nat (size (filter (λ c, Minesweeper.is_mine g c = true) X)).

(** The sentence is true of the board. *)
Definition holds (g : Minesweeper.t) (s : Sentence) : Prop :=
  Sentence.count s = mine_count g (Sentence.cells s).

(** What the engine knows is true of the board. *)
Definition sound (g : Minesweeper.t) (self : AI) : Prop :=
  (∀ c, c ∈ safes self → Minesweeper.is_mine g c = false) ∧
  (∀ c, c ∈ mines self → Minesweeper.is_mine g c = true) ∧
  Forall (holds g) (knowledge self).

(** The caller's contract for one [add_knowledge] call: the cell is on the
    grid, it is not a mine, and the count is the one the board gives. *)
Definition contract (g : Minesweeper.t) (o : Cell * Z) : Prop :=
  in_bounds (Minesweeper.height g) (Minesweeper.width g) o.1 ∧
  Minesweeper.is_mine g o.1 = false ∧
  o.2 = Minesweeper.nearby_mines g o.1.

(** The offsets of the nine cells around a cell, in the order of the
    loops. *)
Definition offsets : list (Z * Z) :=
  [(-1, -1); (-1, 0); (-1, 1); (0, -1); (0, 0); (0, 1); (1, -1); (1, 0); (1, 1)].

(** ** Worked examples *)

(** The two sentences of the subset-inference example and the sentence
    derived from them. *)
Definition example_A : Sentence := Sentence.mk {[(0, 0); (0, 1)]} 1.
Definition example_B : Sentence := Sentence.mk {[(0, 0); (0, 1); (0, 2)]} 1.
Definition example_derived : Sentence := Sentence.mk {[(0, 2)]} 0.

(** A board of 2 rows and 3 columns with one mine, at [(0, 1)]. *)
Definition board_2x3 : Minesweeper.t :=
  Minesweeper.mk 2 3 [[false; true; false]; [false; false; false]].

(** A board of 2 rows and 5 columns with mines at [(1, 0)], [(1, 2)] and
    [(1, 4)]. *)
Definition board_2x5 : Minesweeper.t :=
  Minesweeper.mk 2 5 [[false; false; false; false; false];
                      [true; false; true; false; true]].

(** An engine whose knowledge base is the single sentence [{(1,1)} = 1],
    and the same engine after the loop of [update_knowledge]. *)
Definition saturation_start : AI :=
  MinesweeperAI.mk 3 3 ∅ ∅ ∅ [Sentence.mk {[(1, 1)]} 1].
Definition saturation_end : AI :=
  MinesweeperAI.mk 3 3 ∅ {[(1, 1)]} ∅ [].

(** Four calls that respect the contract for [board_2x3], and the state
    of the third call when its inference pass starts. *)
Definition calls_2x3 : list (Cell * Z) :=
  [((1, 0), 1); ((1, 2), 1); ((1, 1), 1); ((0, 0), 1)].
Definition before_inference_2x3 : AI :=
  update_knowledge (observe (run (init 2 3) (take 2 calls_2x3)) (1, 1) 1).

(** Three calls that respect the contract for [board_2x5], the state of
    the third call when its inference pass starts, and the sentence that
    the second call derives. *)
Definition calls_2x5 : list (Cell * Z) :=
  [((0, 0), 1); ((0, 1), 2); ((0, 4), 1)].
Definition before_inference_2x5 : AI :=
  update_knowledge (observe (run (init 2 5) (take 2 calls_2x5)) (0, 4) 1).
Definition derived_2x5 : Sentence := Sentence.mk {[(0, 2); (1, 2)]} 1.

(** ** Vocabulary of the further properties *)

#[global] Instance in_bounds_dec (height width : Z) (cell : Cell) :
  Decision (in_bounds height width cell).
Proof. unfold in_bounds. apply _. Defined.

(** The cells at the offsets [ds] from a cell, the cell itself left out. *)
Definition cells_at (cell : Cell) (ds : list (Z * Z)) : gset Cell :=
  list_to_set ((λ d : Z * Z, (cell.1 + d.1, cell.2 + d.2))
                 <$> filter (λ d : Z * Z, d ≠ (0, 0)) ds).

(** The eight cells around a cell. *)
Definition neighbors (cell : Cell) : gset Cell := cells_at cell offsets.

(** No sentence mentions a cell that is already known safe or known to be
    a mine. *)
Definition kb_fresh (self : AI) : Prop :=
  ∀ s c, s ∈ knowledge self → c ∈ Sentence.cells s →
         (c ∉ safes self) ∧ (c ∉ mines self).

(** No sentence has anything left for the loop of [update_knowledge]. *)
Definition saturated (kb : list Sentence) : Prop :=
  ∀ s, s ∈ kb →
       Sentence.cells s ≠ ∅ ∧ Sentence.count s ≠ 0 ∧
       Sentence.count s ≠ Z.of_nat (size (Sentence.cells s)).

(** A 2 by 2 engine after one call. *)
Definition one_call_2x2 : AI := add_knowledge (init 2 2) (0, 0) 1.

(** An engine whose single sentence says that two cells hold no mine. *)
Definition two_safe_cells : AI :=
  MinesweeperAI.mk 2 2 ∅ ∅ ∅ [Sentence.mk {[(0, 0); (0, 1)]} 0].

(** The cells of [mines] lie on the grid; the cells of [safes] lie on the
    grid or are cells of [moves_made]. *)
Definition sets_located (self : AI) : Prop :=
  (∀ x, x ∈ mines self → in_bounds (height self) (width self) x) ∧
  (∀ x, x ∈ safes self →
        in_bounds (height self) (width self) x ∨ x ∈ moves_made self).

(** The sentence that the subset rule derives from a pair of sentences. *)
Definition difference (sentence1 sentence2 : Sentence) : Sentence :=
  Sentence.mk (Sentence.cells sentence2 ∖ Sentence.cells sentence1)
              (Sentence.count sentence2 - Sentence.count sentence1).

(** ** class Minesweeper: the whole object *)
Module Game.

(** How a call ends: it returns, it raises [ValueError], or its loop is
    still running when the random numbers supplied are used up. *)
Inductive outcome (A : Type) :=
  | Returned (a : A)
  | ValueError
  | Running.
Arguments Returned {A} a.
Arguments ValueError {A}.
Arguments Running {A}.

(** The object: the grid with its board, [mines] and [mines_found]. *)
Record t := mk {
  grid : Minesweeper.t;
  mines : gset Cell;
  mines_found : gset Cell
}.

(** The board built by the first two loops of [__init__]. *)
Definition empty_board (height width : Z) : list (list bool) :=
  fold_left (λ board _,
               board ++ [fold_left (λ row _, row ++ [false])
                                   (range 0 width) []])
            (range 0 height) [].

(** [board[i][j] = True] *)
Definition set_true (board : list (list bool)) (i j : Z) : list (list bool) :=
  alter (λ row, <[Z.to_nat j := true]> row) (Z.to_nat i) board.

(** The [while] loop of [__init__].  [random.randrange(n)] raises
    [ValueError] when [n <= 0] and returns a number below [n] otherwise;
    each pair of [draws] holds the two random numbers of one iteration. *)
Fixpoint place (height width target : Z) (draws : list (nat * nat))
    (board : list (list bool)) (mines : gset Cell)
    : outcome (list (list bool) * gset Cell) :=
  if bool_decide (Z.of_nat (size mines) = target) then Returned (board, mines)
  else if height <=? 0 then ValueError
  else if width <=? 0 then ValueError
  else
    match draws with
    | [] => Running
    | (d1, d2) :: draws =>
        let i := Z.of_nat d1 mod height in
        let j := Z.of_nat d2 mod width in
        if Minesweeper.board_at (Minesweeper.mk height width board) i j
        then place height width target draws board mines
        else place height width target draws
               (set_true board i j) ({[(i, j)]} ∪ mines)
    end.

(** [__init__] *)
Definition init (height width mines : Z) (draws : list (nat * nat))
    : outcome t :=
  match place height width mines draws (empty_board height width) ∅ with
  | Returned (board, placed) =>
      Returned (mk (Minesweeper.mk height width board) placed ∅)
  | ValueError => ValueError
  | Running => Running
  end.

Definition is_mine (self : t) (cell : Cell) : bool :=
  Minesweeper.is_mine (grid self) cell.

Definition nearby_mines (self : t) (cell : Cell) : Z :=
  Minesweeper.nearby_mines (grid self) cell.

Definition won (self : t) : bool :=
  bool_decide (mines_found self = mines self).

End Game.

(** The board and the set [mines] of a game under construction agree. *)
Definition board_matches (height width : Z) (board : list (list bool))
    (mines : gset Cell) : Prop :=
  length board = Z.to_nat height ∧
  Forall (λ row, length row = Z.to_nat width) board ∧
  (∀ c, c ∈ mines → in_bounds height width c) ∧
  (∀ c, in_bounds height width c →
        (Minesweeper.board_at (Minesweeper.mk height width board) c.1 c.2 = true
         ↔ c ∈ mines)).

(** The calls a player makes on the game [G]: a cell of the grid that is
    not a mine, with the count that the game gives for it. *)
Definition played (G : Game.t) (o : Cell * Z) : Prop :=
  in_bounds (Minesweeper.height (Game.grid G)) (Minesweeper.width (Game.grid G)) o.1 ∧
  (o.1 ∉ Game.mines G) ∧
  o.2 = Game.nearby_mines G o.1.

(** A game of 2 rows and 2 columns with 2 mines, from three draws of which
    the second repeats the first. *)
Definition draws_2x2 : list (nat * nat) := [(5, 2); (1, 0); (2, 3)]%nat.
Definition game_2x2 : Game.t :=
  Game.mk (Minesweeper.mk 2 2 [[false; true]; [true; false]])
          {[(1, 0); (0, 1)]} ∅.

(** ** Minesweeper.print *)
Module Printing.

(** A Python string is the list of its characters. *)
Definition newline : ascii := "010"%char.

(** [print(s)] writes [s] and a newline after the text [out] written so
    far; [print(s, end="")] writes [s] alone. *)
Definition py_print (out s : list ascii) : list ascii := out ++ s ++ [newline].
Definition py_print_end (out s : list ascii) : list ascii := out ++ s.

(** [s * n]: [n] copies of [s], none when [n <= 0]. *)
Definition str_mul (s : list ascii) (n : Z) : list ascii :=
  mjoin (replicate (Z.to_nat n) s).

(** [print]: the text on the standard output after the call, [out] being
    the text before it. *)
Definition print (g : Minesweeper.t) (out : list ascii) : list ascii :=
  let out :=
    fold_left (λ out i,
      let out :=
        py_print out (str_mul ["-"; "-"]%char (Minesweeper.width g) ++ ["-"%char]) in
      let out :=
        fold_left (λ out j,
          if Minesweeper.board_at g i j
          then py_print_end out ["|"; "X"]%char
          else py_print_end out ["|"; " "]%char)
          (range 0 (Minesweeper.width g)) out in
      py_print out ["|"%char])
      (range 0 (Minesweeper.height g)) out in
  py_print out (str_mul ["-"; "-"]%char (Minesweeper.width g) ++ ["-"%char]).

End Printing.

(** The lines of the picture of a board: a line of dashes above every row
    and below the last one; in a row, a bar before every cell and after the
    last one, and [X] for a mine. *)
Definition separator (g : Minesweeper.t) : list ascii :=
  replicate (2 * Z.to_nat (Minesweeper.width g) + 1) "-"%char.

Definition row_text (g : Minesweeper.t) (i : Z) : list ascii :=
  mjoin ((λ j, ["|"%char; if Minesweeper.board_at g i j then "X"%char else " "%char])
           <$> range 0 (Minesweeper.width g))
  ++ ["|"%char].

Definition picture (g : Minesweeper.t) : list (list ascii) :=
  mjoin ((λ i, [separator g; row_text g i]) <$> range 0 (Minesweeper.height g))
  ++ [separator g].

(** The text of a list of lines, each followed by a newline. *)
Definition unlines (ls : list (list ascii)) : list ascii :=
  mjoin ((λ l, l ++ [Printing.newline]) <$> ls).

(** An engine whose single sentence leaves nothing to conclude. *)
Definition one_open_sentence : AI :=
  MinesweeperAI.mk 2 2 ∅ ∅ ∅ [example_A].

(** * Sentences *)

Lemma sentence_mark_safe_cells (s : Sentence) (c : Cell) :
  Sentence.cells (Sentence.mark_safe s c) = Sentence.cells s ∖ {[c]}.
Proof.
  unfold Sentence.mark_safe. case_bool_decide; simpl; [done|set_solver].
Qed.

Lemma sentence_mark_mine_cells (s : Sentence) (c : Cell) :
  Sentence.cells (Sentence.mark_mine s c) = Sentence.cells s ∖ {[c]}.
Proof.
  unfold Sentence.mark_mine. case_bool_decide; simpl; [done|set_solver].
Qed.

Lemma sentence_mark_safe_count (s : Sentence) (c : Cell) :
  Sentence.count (Sentence.mark_safe s c) = Sentence.count s.
Proof. unfold Sentence.mark_safe. by case_bool_decide. Qed.

Lemma sentence_mark_safe_twice (s : Sentence) (c : Cell) :
  Sentence.mark_safe (Sentence.mark_safe s c) c = Sentence.mark_safe s c.
Proof.
  unfold Sentence.mark_safe at 1.
  rewrite bool_decide_eq_false_2; [done|].
  rewrite sentence_mark_safe_cells. set_solver.
Qed.

Lemma sentence_mark_mine_twice (s : Sentence) (c : Cell) :
  Sentence.mark_mine (Sentence.mark_mine s c) c = Sentence.mark_mine s c.
Proof.
  unfold Sentence.mark_mine at 1.
  rewrite bool_decide_eq_false_2; [done|].
  rewrite sentence_mark_mine_cells. set_solver.
Qed.

(** * Marking cells in the engine *)

Lemma sentence_mark_safe_comm (s : Sentence) (c1 c2 : Cell) :
  Sentence.mark_safe (Sentence.mark_safe s c1) c2
  = Sentence.mark_safe (Sentence.mark_safe s c2) c1.
Proof.
  destruct s as [X n]. unfold Sentence.mark_safe; simpl.
  repeat (case_bool_decide; simpl); f_equal; set_solver.
Qed.

Lemma sentence_mark_mine_comm (s : Sentence) (c1 c2 : Cell) :
  Sentence.mark_mine (Sentence.mark_mine s c1) c2
  = Sentence.mark_mine (Sentence.mark_mine s c2) c1.
Proof.
  destruct s as [X n]. unfold Sentence.mark_mine; simpl.
  repeat (case_bool_decide; simpl); f_equal; (lia || set_solver).
Qed.

Lemma mark_safe_comm (a : AI) (c1 c2 : Cell) :
  mark_safe (mark_safe a c1) c2 = mark_safe (mark_safe a c2) c1.
Proof.
  unfold mark_safe; simpl. f_equal; [set_solver|].
  rewrite <- !list_fmap_compose. apply list_fmap_ext.
  intros i s _. apply sentence_mark_safe_comm.
Qed.

Lemma mark_mine_comm (a : AI) (c1 c2 : Cell) :
  mark_mine (mark_mine a c1) c2 = mark_mine (mark_mine a c2) c1.
Proof.
  unfold mark_mine; simpl. f_equal; [set_solver|].
  rewrite <- !list_fmap_compose. apply list_fmap_ext.
  intros i s _. apply sentence_mark_mine_comm.
Qed.

(** The loops [for safe in safes: self.mark_safe(safe)] and
    [for mine in mines: self.mark_mine(mine)] run over Python sets, whose
    iteration order is not fixed: the state they reach is the same for
    every order. *)
Lemma fold_comm_permutation {A B : Type} (f : A → B → A) (l l' : list B) :
  (∀ a x y, f (f a x) y = f (f a y) x) →
  l ≡ₚ l' → ∀ a, fold_left f l a = fold_left f l' a.
Proof.
  intros Hf. induction 1 as [|x l l' _ IH|x y l|l l' l'' _ IH1 _ IH2];
    intros a; simpl.
  - done.
  - apply IH.
  - by rewrite Hf.
  - by rewrite IH1.
Qed.

Lemma fold_mark_safe_any_order (l l' : list Cell) (a : AI) :
  l ≡ₚ l' → fold_left mark_safe l a = fold_left mark_safe l' a.
Proof.
  intros Hp. apply fold_comm_permutation; [|done].
  intros. apply mark_safe_comm.
Qed.

Lemma fold_mark_mine_any_order (l l' : list Cell) (a : AI) :
  l ≡ₚ l' → fold_left mark_mine l a = fold_left mark_mine l' a.
Proof.
  intros Hp. apply fold_comm_permutation; [|done].
  intros. apply mark_mine_comm.
Qed.

(** C8. Marking the same cell twice in a row, as a mine or as safe, leaves
    the engine (its three sets and every sentence of the knowledge base) in
    the state it has after the first marking. *)
Theorem mark_twice_same_state (ai : AI) (c : Cell) :
  mark_mine (mark_mine ai c) c = mark_mine ai c ∧
  mark_safe (mark_safe ai c) c = mark_safe ai c.
Proof.
  split.
  - unfold mark_mine; simpl. f_equal; [set_solver|].
    rewrite <- list_fmap_compose. apply list_fmap_ext.
    intros i s _. apply sentence_mark_mine_twice.
  - unfold mark_safe; simpl. f_equal; [set_solver|].
    rewrite <- list_fmap_compose. apply list_fmap_ext.
    intros i s _. apply sentence_mark_safe_twice.
Qed.

(** * Loops as folds *)

Lemma fold_left_invariant {A B : Type} (P : A → Prop) (f : A → B → A)
    (l : list B) (a : A) :
  P a → (∀ a x, x ∈ l → P a → P (f a x)) → P (fold_left f l a).
Proof.
  revert a. induction l as [|x l IH]; intros a Ha Hstep; simpl; [done|].
  apply IH.
  - apply Hstep; [left|done].
  - intros a' y Hy. apply Hstep. by right.
Qed.

(** * The sets only grow *)

Lemma extends_refl (a : AI) : extends a a.
Proof. by repeat split. Qed.

Lemma extends_trans (a b c : AI) : extends a b → extends b c → extends a c.
Proof.
  intros (?&?&?&?&?) (?&?&?&?&?).
  repeat split; try congruence; set_solver.
Qed.

Lemma mark_safe_extends (a : AI) (c : Cell) : extends a (mark_safe a c).
Proof. repeat split; simpl; set_solver. Qed.

Lemma mark_mine_extends (a : AI) (c : Cell) : extends a (mark_mine a c).
Proof. repeat split; simpl; set_solver. Qed.

Lemma set_knowledge_extends (a : AI) (kb : list Sentence) :
  extends a (set_knowledge a kb).
Proof. by repeat split. Qed.

Lemma fold_mark_safe_extends (l : list Cell) (a : AI) :
  extends a (fold_left mark_safe l a).
Proof.
  apply (fold_left_invariant (extends a)); [apply extends_refl|].
  intros b c _ Hb. eapply extends_trans; [exact Hb|apply mark_safe_extends].
Qed.

Lemma fold_mark_mine_extends (l : list Cell) (a : AI) :
  extends a (fold_left mark_mine l a).
Proof.
  apply (fold_left_invariant (extends a)); [apply extends_refl|].
  intros b c _ Hb. eapply extends_trans; [exact Hb|apply mark_mine_extends].
Qed.

(** [if xs: for x in xs: ...] is the loop alone: over an empty set it does
    nothing. *)
Lemma guarded_loop (f : AI → Cell → AI) (X : gset Cell) (a : AI) :
  (if bool_decide (X ≠ ∅) then fold_left f (elements X) a else a)
  = fold_left f (elements X) a.
Proof.
  case_bool_decide as HX; [done|].
  by rewrite HX, elements_empty.
Qed.

(** The body of the [while] loop without the two emptiness tests. *)
Lemma update_pass_unfold (a : AI) :
  update_pass a =
    let self2 := fold_left mark_mine (elements (scan (knowledge a)).2)
                   (fold_left mark_safe (elements (scan (knowledge a)).1) a) in
    (set_knowledge self2
       (filter (λ s, Sentence.cells s ≠ ∅) (knowledge self2)),
     bool_decide ((scan (knowledge a)).1 ≠ ∅)
     || bool_decide ((scan (knowledge a)).2 ≠ ∅)).
Proof.
  unfold update_pass. destruct (scan (knowledge a)) as [S M]; simpl.
  by rewrite !guarded_loop.
Qed.

Lemma update_pass_extends (a : AI) : extends a (update_pass a).1.
Proof.
  rewrite update_pass_unfold; simpl.
  eapply extends_trans; [|apply set_knowledge_extends].
  eapply extends_trans; [apply fold_mark_safe_extends|].
  apply fold_mark_mine_extends.
Qed.

Lemma update_loop_extends (fuel : nat) (a b : AI) :
  update_loop fuel a = Some b → extends a b.
Proof.
  revert a. induction fuel as [|fuel IH]; intros a; simpl; [done|].
  pose proof (update_pass_extends a) as Hp.
  destruct (update_pass a) as [a' [|]]; simpl in Hp.
  - intros H. eapply extends_trans; [exact Hp|by apply IH].
  - intros [= <-]. exact Hp.
Qed.

Lemma update_knowledge_extends (a : AI) : extends a (update_knowledge a).
Proof.
  unfold update_knowledge.
  destruct (update_loop _ a) as [b|] eqn:E; simpl.
  - by eapply update_loop_extends.
  - apply extends_refl.
Qed.

Lemma infer_new_sentences_extends (a : AI) : extends a (infer_new_sentences a).
Proof. apply set_knowledge_extends. Qed.

(** What steps 1 to 3 of [add_knowledge] do to the three sets. *)
Lemma observe_sets (a : AI) (c : Cell) (k : Z) :
  height (observe a c k) = height a ∧ width (observe a c k) = width a ∧
  moves_made (observe a c k) = {[c]} ∪ moves_made a ∧
  mines (observe a c k) = mines a ∧
  safes (observe a c k) = {[c]} ∪ safes a.
Proof.
  unfold observe.
  destruct (neighbor_scan _ c) as [nc kn].
  by case_bool_decide.
Qed.

Lemma add_knowledge_sets (a : AI) (c : Cell) (k : Z) :
  height (add_knowledge a c k) = height a ∧
  width (add_knowledge a c k) = width a ∧
  moves_made (add_knowledge a c k) = {[c]} ∪ moves_made a ∧
  mines a ⊆ mines (add_knowledge a c k) ∧
  {[c]} ∪ safes a ⊆ safes (add_knowledge a c k).
Proof.
  unfold add_knowledge.
  destruct (observe_sets a c k) as (Hh&Hw&Hm&Hmi&Hs).
  pose proof (extends_trans _ _ _ (update_knowledge_extends (observe a c k))
                (infer_new_sentences_extends _)) as (Eh&Ew&Em&Emi&Es).
  rewrite Eh, Ew, Em. rewrite <- Hmi, <- Hs. done.
Qed.

(** The last call of a sequence, split at its inference pass. *)
Lemma run_snoc (a : AI) (obs : list (Cell * Z)) (c : Cell) (k : Z) :
  run a (obs ++ [(c, k)])
  = infer_new_sentences (update_knowledge (observe (run a obs) c k)).
Proof. unfold run. by rewrite fold_left_app. Qed.

(** C5. Over any sequence of [add_knowledge] calls, from any state, a cell
    that is in [safes] stays in [safes] and a cell that is in [mines] stays
    in [mines]. *)
Theorem safes_and_mines_only_grow (ai : AI) (obs : list (Cell * Z)) (c : Cell) :
  (c ∈ safes ai → c ∈ safes (run ai obs)) ∧
  (c ∈ mines ai → c ∈ mines (run ai obs)).
Proof.
  unfold run.
  apply (fold_left_invariant
           (λ b, (c ∈ safes ai → c ∈ safes b) ∧ (c ∈ mines ai → c ∈ mines b))).
  - done.
  - intros b [c' k] _ [Hs Hm].
    destruct (add_knowledge_sets b c' k) as (_&_&_&Hmi&Hsa).
    split; intros H; [apply Hs in H|apply Hm in H]; set_solver.
Qed.

(** C9. After any sequence of [add_knowledge] calls on a new engine, every
    cell of [moves_made] is in [safes]; each call keeps it so. *)
Theorem moves_made_subset_safes :
  (∀ (h w : Z) (obs : list (Cell * Z)),
     moves_made (run (init h w) obs) ⊆ safes (run (init h w) obs)) ∧
  (∀ (ai : AI) (c : Cell) (k : Z),
     moves_made ai ⊆ safes ai →
     moves_made (add_knowledge ai c k) ⊆ safes (add_knowledge ai c k)).
Proof.
  assert (Hstep : ∀ (ai : AI) (c : Cell) (k : Z),
     moves_made ai ⊆ safes ai →
     moves_made (add_knowledge ai c k) ⊆ safes (add_knowledge ai c k)).
  { intros ai c k H.
    destruct (add_knowledge_sets ai c k) as (_&_&Hm&_&Hs).
    rewrite Hm. set_solver. }
  split; [|exact Hstep].
  intros h w obs. unfold run.
  apply (fold_left_invariant (λ b, moves_made b ⊆ safes b)).
  - done.
  - intros b [c k] _ Hb. by apply Hstep.
Qed.

(** * The cells of the sentences *)

Section AllCells.
Context (P : Cell → Prop).

Lemma all_cells_mark_safe (a : AI) (c : Cell) :
  all_cells P (knowledge a) → all_cells P (knowledge (mark_safe a c)).
Proof.
  unfold all_cells; simpl. rewrite Forall_fmap.
  intros H. eapply Forall_impl; [exact H|]. intros s Hs x; simpl.
  rewrite sentence_mark_safe_cells. set_solver.
Qed.

Lemma all_cells_mark_mine (a : AI) (c : Cell) :
  all_cells P (knowledge a) → all_cells P (knowledge (mark_mine a c)).
Proof.
  unfold all_cells; simpl. rewrite Forall_fmap.
  intros H. eapply Forall_impl; [exact H|]. intros s Hs x; simpl.
  rewrite sentence_mark_mine_cells. set_solver.
Qed.

Lemma all_cells_filter (Q : Sentence → Prop) `{!∀ s, Decision (Q s)}
    (kb : list Sentence) :
  all_cells P kb → all_cells P (filter Q kb).
Proof.
  unfold all_cells. rewrite !Forall_forall.
  intros Hkb s Hs. apply list_elem_of_filter in Hs as [_ Hs]. by apply Hkb.
Qed.

Lemma all_cells_update_pass (a : AI) :
  all_cells P (knowledge a) → all_cells P (knowledge (update_pass a).1).
Proof.
  intros Ha. rewrite update_pass_unfold; simpl.
  apply all_cells_filter.
  apply (fold_left_invariant (λ b, all_cells P (knowledge b))).
  - apply (fold_left_invariant (λ b, all_cells P (knowledge b))); [done|].
    intros b c _. apply all_cells_mark_safe.
  - intros b c _. apply all_cells_mark_mine.
Qed.

Lemma all_cells_update_loop (fuel : nat) (a b : AI) :
  update_loop fuel a = Some b →
  all_cells P (knowledge a) → all_cells P (knowledge b).
Proof.
  revert a. induction fuel as [|fuel IH]; intros a; simpl; [done|].
  pose proof (all_cells_update_pass a) as Hp.
  destruct (update_pass a) as [a' [|]]; simpl in Hp.
  - intros H Ha. apply (IH a'); auto.
  - intros [= <-]. exact Hp.
Qed.

Lemma all_cells_update_knowledge (a : AI) :
  all_cells P (knowledge a) → all_cells P (knowledge (update_knowledge a)).
Proof.
  unfold update_knowledge.
  destruct (update_loop _ a) as [b|] eqn:E; simpl; [|done].
  by eapply all_cells_update_loop.
Qed.

Lemma all_cells_infer_pair (nk : list Sentence) (s1 s2 : Sentence) :
  (∀ c, c ∈ Sentence.cells s2 → P c) →
  all_cells P nk → all_cells P (infer_pair nk s1 s2).
Proof.
  intros H2 Hnk. unfold infer_pair.
  repeat case_bool_decide; try done.
  apply Forall_app_2; [done|].
  apply Forall_singleton. simpl. set_solver.
Qed.

Lemma all_cells_inferred (kb : list Sentence) :
  all_cells P kb → all_cells P (inferred kb).
Proof.
  intros Hkb. unfold inferred.
  apply (fold_left_invariant (all_cells P)); [by apply Forall_nil|].
  intros nk s1 _ Hnk.
  apply (fold_left_invariant (all_cells P)); [done|].
  intros nk' s2 Hs2. apply all_cells_infer_pair.
  unfold all_cells in Hkb. rewrite Forall_forall in Hkb. by apply Hkb.
Qed.

Lemma all_cells_infer_new_sentences (a : AI) :
  all_cells P (knowledge a) →
  all_cells P (knowledge (infer_new_sentences a)).
Proof.
  intros Ha. simpl. apply Forall_app_2; [done|]. by apply all_cells_inferred.
Qed.

End AllCells.

(** The new sentence of [add_knowledge] holds cells of the grid only,
    wherever the observed cell lies. *)
Lemma visit_in_bounds (a : AI) (row col drow dcol : Z) (acc : gset Cell * Z) :
  (∀ c, c ∈ acc.1 → in_bounds (height a) (width a) c) →
  ∀ c, c ∈ (visit a row col acc drow dcol).1 →
       in_bounds (height a) (width a) c.
Proof.
  destruct acc as [nc kn]. unfold visit; simpl. intros Hacc.
  destruct (_ && _); [done|].
  destruct (_ && _ && _ && _) eqn:Hb; [|done].
  repeat case_bool_decide; simpl; try done.
  intros c [->%elem_of_singleton|Hc]%elem_of_union; [|by apply Hacc].
  unfold in_bounds; simpl. lia.
Qed.

Lemma neighbor_scan_in_bounds (a : AI) (cell : Cell) :
  ∀ c, c ∈ (neighbor_scan a cell).1 → in_bounds (height a) (width a) c.
Proof.
  destruct cell as [row col]. unfold neighbor_scan.
  apply (fold_left_invariant
           (λ acc, ∀ c, c ∈ acc.1 → in_bounds (height a) (width a) c)).
  - simpl. set_solver.
  - intros acc drow _ Hacc.
    apply (fold_left_invariant
           (λ acc, ∀ c, c ∈ acc.1 → in_bounds (height a) (width a) c));
      [done|].
    intros acc' dcol _. apply visit_in_bounds.
Qed.

Lemma observe_in_bounds (a : AI) (c : Cell) (k : Z) :
  kb_in_bounds a → kb_in_bounds (observe a c k).
Proof.
  intros Ha. unfold kb_in_bounds.
  destruct (observe_sets a c k) as (-> & -> & _).
  unfold observe.
  pose proof (neighbor_scan_in_bounds
                (mark_safe (set_moves_made a ({[c]} ∪ moves_made a)) c) c) as Hn.
  destruct (neighbor_scan _ c) as [nc kn]; simpl in Hn.
  assert (Hm : all_cells (in_bounds (height a) (width a))
                 (knowledge (mark_safe
                    (set_moves_made a ({[c]} ∪ moves_made a)) c))).
  { by apply all_cells_mark_safe. }
  case_bool_decide; [|done].
  simpl. apply Forall_app_2; [exact Hm|]. by apply Forall_singleton.
Qed.

Lemma apply_op_in_bounds (a : AI) (o : op) :
  kb_in_bounds a → kb_in_bounds (apply_op a o).
Proof.
  intros Ha. unfold kb_in_bounds.
  destruct o as [c|c|c k| |]; unfold apply_op.
  - by apply all_cells_mark_mine.
  - by apply all_cells_mark_safe.
  - destruct (add_knowledge_sets a c k) as (-> & -> & _).
    unfold add_knowledge.
    apply all_cells_infer_new_sentences, all_cells_update_knowledge.
    pose proof (observe_in_bounds a c k Ha) as Ho. unfold kb_in_bounds in Ho.
    by destruct (observe_sets a c k) as (<- & <- & _).
  - destruct (update_knowledge_extends a) as (-> & -> & _).
    by apply all_cells_update_knowledge.
  - by apply all_cells_infer_new_sentences.
Qed.

(** C10. After any sequence of operations on a new engine ([mark_mine],
    [mark_safe], [add_knowledge] with any cell, on the grid or not,
    [update_knowledge], [infer_new_sentences]), every cell of every sentence
    of the knowledge base lies on the grid. *)
Theorem sentence_cells_in_bounds (h w : Z) (ops : list op) :
  ∀ (s : Sentence) (c : Cell),
    s ∈ knowledge (run_ops (init h w) ops) → c ∈ Sentence.cells s →
    0 ≤ c.1 < h ∧ 0 ≤ c.2 < w.
Proof.
  assert (H : kb_in_bounds (run_ops (init h w) ops) ∧
              height (run_ops (init h w) ops) = h ∧
              width (run_ops (init h w) ops) = w).
  { unfold run_ops.
    apply (fold_left_invariant
             (λ a, kb_in_bounds a ∧ height a = h ∧ width a = w)).
    - split; [by apply Forall_nil|done].
    - intros a o _ (Ha & Hh & Hw). split; [by apply apply_op_in_bounds|].
      destruct o as [c|c|c k| |]; unfold apply_op; try done.
      + by destruct (add_knowledge_sets a c k) as (-> & -> & _).
      + by destruct (update_knowledge_extends a) as (-> & -> & _). }
  destruct H as (Hkb & Hh & Hw).
  unfold kb_in_bounds, all_cells in Hkb. rewrite Hh, Hw in Hkb.
  rewrite Forall_forall in Hkb.
  intros s c Hs Hc. exact (Hkb s Hs c Hc).
Qed.

(** * The saturation loop terminates *)

Lemma known_safes_subseteq (s : Sentence) :
  Sentence.known_safes s ⊆ Sentence.cells s.
Proof. unfold Sentence.known_safes. case_bool_decide; set_solver. Qed.

Lemma known_mines_subseteq (s : Sentence) :
  Sentence.known_mines s ⊆ Sentence.cells s.
Proof. unfold Sentence.known_mines. destruct (_ && _); set_solver. Qed.

(** The two sets found by the first loop of [update_knowledge] are the
    unions of [known_safes] and of [known_mines] over the sentences. *)
Lemma scan_from_spec (kb : list Sentence) (acc : gset Cell * gset Cell)
    (c : Cell) :
  let r := fold_left (λ '(safes, mines) sentence,
                        (safes ∪ Sentence.known_safes sentence,
                         mines ∪ Sentence.known_mines sentence)) kb acc in
  (c ∈ r.1 ↔ c ∈ acc.1 ∨ ∃ s, s ∈ kb ∧ c ∈ Sentence.known_safes s) ∧
  (c ∈ r.2 ↔ c ∈ acc.2 ∨ ∃ s, s ∈ kb ∧ c ∈ Sentence.known_mines s).
Proof.
  revert acc. induction kb as [|s kb IH]; intros [S M]; simpl.
  - split; (split; [by left|]); intros [?|(s&Hs&_)]; try done;
      by apply elem_of_nil in Hs.
  - destruct (IH (S ∪ Sentence.known_safes s, M ∪ Sentence.known_mines s))
      as [IH1 IH2]. simpl in IH1, IH2.
    split; [rewrite IH1|rewrite IH2]; rewrite elem_of_union;
      setoid_rewrite elem_of_cons; naive_solver.
Qed.

Lemma scan_safes (kb : list Sentence) (c : Cell) :
  c ∈ (scan kb).1 ↔ ∃ s, s ∈ kb ∧ c ∈ Sentence.known_safes s.
Proof.
  destruct (scan_from_spec kb (∅, ∅) c) as [H _]. unfold scan.
  rewrite H. simpl. set_solver.
Qed.

Lemma scan_mines (kb : list Sentence) (c : Cell) :
  c ∈ (scan kb).2 ↔ ∃ s, s ∈ kb ∧ c ∈ Sentence.known_mines s.
Proof.
  destruct (scan_from_spec kb (∅, ∅) c) as [_ H]. unfold scan.
  rewrite H. simpl. set_solver.
Qed.

Lemma total_cells_cons (s : Sentence) (kb : list Sentence) :
  total_cells (s :: kb) = (size (Sentence.cells s) + total_cells kb)%nat.
Proof. done. Qed.

Lemma total_cells_fmap_le (f : Sentence → Sentence) (kb : list Sentence) :
  (∀ s, size (Sentence.cells (f s)) ≤ size (Sentence.cells s))%nat →
  (total_cells (f <$> kb) ≤ total_cells kb)%nat.
Proof.
  intros Hf. induction kb as [|s kb IH]; [done|].
  rewrite fmap_cons, !total_cells_cons. specialize (Hf s). lia.
Qed.

Lemma total_cells_fmap_lt (f : Sentence → Sentence) (kb : list Sentence)
    (s : Sentence) :
  (∀ s, size (Sentence.cells (f s)) ≤ size (Sentence.cells s))%nat →
  s ∈ kb →
  (size (Sentence.cells (f s)) < size (Sentence.cells s))%nat →
  (total_cells (f <$> kb) < total_cells kb)%nat.
Proof.
  intros Hf Hs Hlt. induction kb as [|s' kb IH].
  - by apply elem_of_nil in Hs.
  - rewrite fmap_cons, !total_cells_cons.
    apply elem_of_cons in Hs as [->|Hs].
    + pose proof (total_cells_fmap_le f kb Hf). lia.
    + specialize (IH Hs). specialize (Hf s'). lia.
Qed.

Lemma total_cells_filter_le (Q : Sentence → Prop) `{!∀ s, Decision (Q s)}
    (kb : list Sentence) :
  (total_cells (filter Q kb) ≤ total_cells kb)%nat.
Proof.
  induction kb as [|s kb IH]; [done|].
  rewrite filter_cons.
  destruct (decide (Q s)); rewrite !total_cells_cons; lia.
Qed.

Lemma size_remove_le (X : gset Cell) (c : Cell) :
  (size (X ∖ {[c]}) ≤ size X)%nat.
Proof. apply subseteq_size. set_solver. Qed.

Lemma size_remove_lt (X : gset Cell) (c : Cell) :
  c ∈ X → (size (X ∖ {[c]}) < size X)%nat.
Proof. intros Hc. apply subset_size. set_solver. Qed.

Lemma mark_safe_total_le (a : AI) (c : Cell) :
  (total_cells (knowledge (mark_safe a c)) ≤ total_cells (knowledge a))%nat.
Proof.
  simpl. apply total_cells_fmap_le. intros s.
  rewrite sentence_mark_safe_cells. apply size_remove_le.
Qed.

Lemma mark_mine_total_le (a : AI) (c : Cell) :
  (total_cells (knowledge (mark_mine a c)) ≤ total_cells (knowledge a))%nat.
Proof.
  simpl. apply total_cells_fmap_le. intros s.
  rewrite sentence_mark_mine_cells. apply size_remove_le.
Qed.

Lemma mark_safe_total_lt (a : AI) (c : Cell) (s : Sentence) :
  s ∈ knowledge a → c ∈ Sentence.cells s →
  (total_cells (knowledge (mark_safe a c)) < total_cells (knowledge a))%nat.
Proof.
  intros Hs Hc. simpl.
  apply (total_cells_fmap_lt _ _ s); [|done|].
  - intros s'. rewrite sentence_mark_safe_cells. apply size_remove_le.
  - rewrite sentence_mark_safe_cells. by apply size_remove_lt.
Qed.

Lemma mark_mine_total_lt (a : AI) (c : Cell) (s : Sentence) :
  s ∈ knowledge a → c ∈ Sentence.cells s →
  (total_cells (knowledge (mark_mine a c)) < total_cells (knowledge a))%nat.
Proof.
  intros Hs Hc. simpl.
  apply (total_cells_fmap_lt _ _ s); [|done|].
  - intros s'. rewrite sentence_mark_mine_cells. apply size_remove_le.
  - rewrite sentence_mark_mine_cells. by apply size_remove_lt.
Qed.

Lemma fold_mark_safe_total_le (l : list Cell) (a : AI) :
  (total_cells (knowledge (fold_left mark_safe l a))
   ≤ total_cells (knowledge a))%nat.
Proof.
  apply (fold_left_invariant
    (λ b, (total_cells (knowledge b) ≤ total_cells (knowledge a))%nat));
    [lia|].
  intros b c _ Hb. pose proof (mark_safe_total_le b c). lia.
Qed.

Lemma fold_mark_mine_total_le (l : list Cell) (a : AI) :
  (total_cells (knowledge (fold_left mark_mine l a))
   ≤ total_cells (knowledge a))%nat.
Proof.
  apply (fold_left_invariant
    (λ b, (total_cells (knowledge b) ≤ total_cells (knowledge a))%nat));
    [lia|].
  intros b c _ Hb. pose proof (mark_mine_total_le b c). lia.
Qed.

(** A non-empty set of cells taken from the sentences: marking its cells
    removes at least the first of them from a sentence. *)
Lemma fold_mark_safe_total_lt (X : gset Cell) (a : AI) :
  X ≠ ∅ →
  (∀ c, c ∈ X → ∃ s, s ∈ knowledge a ∧ c ∈ Sentence.cells s) →
  (total_cells (knowledge (fold_left mark_safe (elements X) a))
   < total_cells (knowledge a))%nat.
Proof.
  intros HX Hin.
  destruct (elements X) as [|c l] eqn:E.
  { by apply elements_empty_inv, leibniz_equiv in E. }
  destruct (Hin c) as (s & Hs & Hc).
  { apply elem_of_elements. rewrite E. left. }
  simpl. pose proof (fold_mark_safe_total_le l (mark_safe a c)).
  pose proof (mark_safe_total_lt a c s Hs Hc). lia.
Qed.

Lemma fold_mark_mine_total_lt (X : gset Cell) (a : AI) :
  X ≠ ∅ →
  (∀ c, c ∈ X → ∃ s, s ∈ knowledge a ∧ c ∈ Sentence.cells s) →
  (total_cells (knowledge (fold_left mark_mine (elements X) a))
   < total_cells (knowledge a))%nat.
Proof.
  intros HX Hin.
  destruct (elements X) as [|c l] eqn:E.
  { by apply elements_empty_inv, leibniz_equiv in E. }
  destruct (Hin c) as (s & Hs & Hc).
  { apply elem_of_elements. rewrite E. left. }
  simpl. pose proof (fold_mark_mine_total_le l (mark_mine a c)).
  pose proof (mark_mine_total_lt a c s Hs Hc). lia.
Qed.

Lemma update_pass_total_le (a : AI) :
  (total_cells (knowledge (update_pass a).1) ≤ total_cells (knowledge a))%nat.
Proof.
  rewrite update_pass_unfold; simpl.
  etrans; [apply total_cells_filter_le|].
  etrans; [apply fold_mark_mine_total_le|].
  apply fold_mark_safe_total_le.
Qed.

(** An iteration that sets [knowledge_updated] removes a cell from a
    sentence. *)
Lemma update_pass_total_lt (a : AI) :
  (update_pass a).2 = true →
  (total_cells (knowledge (update_pass a).1) < total_cells (knowledge a))%nat.
Proof.
  rewrite update_pass_unfold; simpl. intros Hu.
  eapply Nat.le_lt_trans; [apply total_cells_filter_le|].
  destruct (decide ((scan (knowledge a)).1 = ∅)) as [HS|HS].
  - rewrite HS, elements_empty; simpl.
    rewrite HS in Hu. rewrite bool_decide_eq_false_2 in Hu by (by intros []).
    simpl in Hu. apply bool_decide_eq_true_1 in Hu.
    apply fold_mark_mine_total_lt; [done|].
    intros c Hc. apply scan_mines in Hc as (s & Hs & Hc).
    exists s. split; [done|]. by apply known_mines_subseteq.
  - eapply Nat.le_lt_trans; [apply fold_mark_mine_total_le|].
    apply fold_mark_safe_total_lt; [done|].
    intros c Hc. apply scan_safes in Hc as (s & Hs & Hc).
    exists s. split; [done|]. by apply known_safes_subseteq.
Qed.

Lemma update_loop_terminates (fuel : nat) (a : AI) :
  (total_cells (knowledge a) < fuel)%nat → is_Some (update_loop fuel a).
Proof.
  revert a. induction fuel as [|fuel IH]; intros a Hlt; [lia|]. simpl.
  pose proof (update_pass_total_lt a) as Hp.
  destruct (update_pass a) as [a' [|]]; simpl in Hp; [|by eexists].
  apply IH. specialize (Hp eq_refl). lia.
Qed.

(** At the exit of the loop a further iteration finds nothing. *)
Lemma filter_nonempty_idemp (kb : list Sentence) :
  filter (λ s, Sentence.cells s ≠ ∅) (filter (λ s, Sentence.cells s ≠ ∅) kb)
  = filter (λ s, Sentence.cells s ≠ ∅) kb.
Proof.
  induction kb as [|s kb IH]; [done|].
  rewrite filter_cons. destruct (decide (Sentence.cells s ≠ ∅)); [|done].
  rewrite filter_cons. rewrite decide_True by done. by rewrite IH.
Qed.

Lemma update_pass_last (a b : AI) :
  update_pass a = (b, false) → update_pass b = (b, false).
Proof.
  rewrite update_pass_unfold; simpl. intros [= Hb Hu].
  apply orb_false_elim in Hu as [HS HM].
  apply bool_decide_eq_false_1, dec_stable in HS.
  apply bool_decide_eq_false_1, dec_stable in HM.
  rewrite HS, HM, elements_empty in Hb. simpl in Hb.
  assert (HS' : (scan (knowledge b)).1 = ∅).
  { apply leibniz_equiv, elem_of_equiv_empty. intros c Hc.
    apply scan_safes in Hc as (s & Hs & Hc). subst b; simpl in Hs.
    apply list_elem_of_filter in Hs as [_ Hs].
    assert (c ∈ (scan (knowledge a)).1) by (apply scan_safes; eauto).
    set_solver. }
  assert (HM' : (scan (knowledge b)).2 = ∅).
  { apply leibniz_equiv, elem_of_equiv_empty. intros c Hc.
    apply scan_mines in Hc as (s & Hs & Hc). subst b; simpl in Hs.
    apply list_elem_of_filter in Hs as [_ Hs].
    assert (c ∈ (scan (knowledge a)).2) by (apply scan_mines; eauto).
    set_solver. }
  rewrite update_pass_unfold; simpl.
  rewrite HS', HM', elements_empty; simpl.
  rewrite !bool_decide_eq_false_2 by (by intros []); simpl.
  apply (f_equal (λ x, (x, false))).
  subst b. unfold set_knowledge; simpl. f_equal. apply filter_nonempty_idemp.
Qed.

Lemma update_loop_fixpoint (fuel : nat) (a b : AI) :
  update_loop fuel a = Some b → update_pass b = (b, false).
Proof.
  revert a. induction fuel as [|fuel IH]; intros a; simpl; [done|].
  destruct (update_pass a) as [a' [|]] eqn:E.
  - apply IH.
  - intros [= <-]. by eapply update_pass_last.
Qed.

(** More iterations than needed change nothing. *)
Lemma update_loop_more_fuel (fuel fuel' : nat) (a b : AI) :
  (fuel ≤ fuel')%nat → update_loop fuel a = Some b → update_loop fuel' a = Some b.
Proof.
  revert fuel' a. induction fuel as [|fuel IH]; intros fuel' a Hle; [done|].
  destruct fuel' as [|fuel']; [lia|]. simpl.
  destruct (update_pass a) as [a' [|]]; [|done].
  apply IH. lia.
Qed.

(** [update_knowledge] is the state at the exit of the loop. *)
Lemma update_loop_result (a : AI) :
  update_loop (S (total_cells (knowledge a))) a = Some (update_knowledge a).
Proof.
  unfold update_knowledge.
  destruct (update_loop_terminates (S (total_cells (knowledge a))) a)
    as [b Hb]; [lia|].
  by rewrite Hb.
Qed.

(** [update_knowledge] satisfies the equation of the [while] loop. *)
Lemma update_knowledge_unfold (a : AI) :
  update_knowledge a
  = (if (update_pass a).2 then update_knowledge (update_pass a).1
     else (update_pass a).1).
Proof.
  pose proof (update_loop_result a) as Hloop. simpl in Hloop.
  pose proof (update_pass_total_lt a) as Hlt.
  destruct (update_pass a) as [a' [|]]; simpl in *.
  - pose proof (update_loop_result a') as Hloop'.
    apply (update_loop_more_fuel _ (total_cells (knowledge a))) in Hloop';
      [|specialize (Hlt eq_refl); lia].
    congruence.
  - congruence.
Qed.

(** C3. The loop of [update_knowledge] terminates from every state.
    Marking a cell removes it from every sentence; an iteration that sets
    [knowledge_updated] leaves strictly fewer cells in the sentences, so one
    more iteration than there are cells is enough for the loop to exit (and
    more change nothing); at the exit a further iteration would change
    nothing. *)
Theorem update_knowledge_terminates (ai : AI) :
  (∀ c s, s ∈ knowledge (mark_safe ai c) ∨ s ∈ knowledge (mark_mine ai c) →
          c ∉ Sentence.cells s) ∧
  (∀ ai', update_pass ai = (ai', true) →
     (total_cells (knowledge ai') < total_cells (knowledge ai))%nat) ∧
  (∀ fuel, (total_cells (knowledge ai) < fuel)%nat →
           update_loop fuel ai = Some (update_knowledge ai)) ∧
  update_pass (update_knowledge ai) = (update_knowledge ai, false).
Proof.
  split; [|split; [|split]].
  - intros c s [Hs|Hs]; simpl in Hs;
      apply list_elem_of_fmap in Hs as (s0 & -> & _).
    + rewrite sentence_mark_safe_cells. set_solver.
    + rewrite sentence_mark_mine_cells. set_solver.
  - intros ai' E. pose proof (update_pass_total_lt ai) as H.
    rewrite E in H. by apply H.
  - intros fuel Hfuel.
    apply (update_loop_more_fuel (S (total_cells (knowledge ai)))); [lia|].
    apply update_loop_result.
  - eapply update_loop_fixpoint, update_loop_result.
Qed.

(** * Move selection *)

Lemma elem_of_range (a b i : Z) : i ∈ range a b ↔ a ≤ i < b.
Proof. unfold range. rewrite elem_of_seqZ. lia. Qed.

Lemma choices_row_spec (p : Cell → bool) (i : Z) (js : list Z)
    (acc : list Cell) (c : Cell) :
  c ∈ fold_left (λ choices j, if p (i, j) then choices ++ [(i, j)] else choices)
        js acc
  ↔ c ∈ acc ∨ (c.1 = i ∧ c.2 ∈ js ∧ p c = true).
Proof.
  revert acc. induction js as [|j js IH]; intros acc; simpl.
  - rewrite elem_of_nil. naive_solver.
  - rewrite IH, elem_of_cons. destruct (p (i, j)) eqn:Hp.
    + rewrite elem_of_app, list_elem_of_singleton.
      destruct c as [ci cj]; simpl. clear IH. rewrite pair_equal_spec.
      intuition (subst; auto).
    + destruct c as [ci cj]; simpl. clear IH.
      intuition (subst; auto; congruence).
Qed.

Lemma choices_grid_spec (p : Cell → bool) (rows js : list Z)
    (acc : list Cell) (c : Cell) :
  c ∈ fold_left (λ choices i,
        fold_left (λ choices j,
                     if p (i, j) then choices ++ [(i, j)] else choices)
                  js choices)
        rows acc
  ↔ c ∈ acc ∨ (c.1 ∈ rows ∧ c.2 ∈ js ∧ p c = true).
Proof.
  revert acc. induction rows as [|i rows IH]; intros acc; simpl.
  - rewrite elem_of_nil. naive_solver.
  - rewrite IH, choices_row_spec, elem_of_cons. naive_solver.
Qed.

Lemma choices_spec (ai : AI) (c : Cell) : c ∈ choices ai ↔ candidate ai c.
Proof.
  unfold choices, candidate, in_bounds.
  rewrite (choices_grid_spec
    (λ c, bool_decide (c ∉ moves_made ai) && bool_decide (c ∉ mines ai))).
  rewrite !elem_of_range, elem_of_nil, andb_true_iff, !bool_decide_eq_true.
  set_solver.
Qed.

(** C7. The cells among which [make_random_move] draws are exactly the
    cells of the grid outside [moves_made] and [mines]; whatever number is
    drawn, the result is [None] exactly when there is no such cell, and a
    returned cell is one of them, so it is neither in [moves_made] nor in
    [mines]; every such cell is returned for some draw. *)
Theorem make_random_move_spec (ai : AI) :
  (∀ c, c ∈ choices ai ↔
        (0 ≤ c.1 < height ai ∧ 0 ≤ c.2 < width ai) ∧
        c ∉ moves_made ai ∪ mines ai) ∧
  (∀ rnd, make_random_move ai rnd = None ↔ ∀ c, ¬ candidate ai c) ∧
  (∀ rnd c, make_random_move ai rnd = Some c →
            candidate ai c ∧ (c ∉ moves_made ai) ∧ (c ∉ mines ai)) ∧
  (∀ c, candidate ai c → ∃ rnd, make_random_move ai rnd = Some c).
Proof.
  split; [|split; [|split]].
  - intros c. apply choices_spec.
  - intros rnd. unfold make_random_move.
    destruct (choices ai) as [|c0 l] eqn:E.
    + split; [|done]. intros _ c Hc.
      apply choices_spec in Hc. rewrite E in Hc. by apply elem_of_nil in Hc.
    + split.
      * intros Hn. apply lookup_ge_None in Hn.
        pose proof (Nat.mod_upper_bound rnd (length (c0 :: l))) as Hb.
        simpl in Hb, Hn. lia.
      * intros Hno. destruct (Hno c0). apply choices_spec. rewrite E. left.
  - intros rnd c. unfold make_random_move.
    destruct (choices ai) as [|c0 l] eqn:E; [done|].
    intros Hc. apply list_elem_of_lookup_2 in Hc.
    rewrite <- E in Hc. apply choices_spec in Hc.
    split; [done|]. destruct Hc as [_ Hc]. set_solver.
  - intros c Hc. apply choices_spec, list_elem_of_lookup_1 in Hc as [i Hi].
    exists i. unfold make_random_move.
    pose proof (lookup_lt_Some _ _ _ Hi) as Hlt.
    destruct (choices ai) as [|c0 l] eqn:E; [done|].
    by rewrite Nat.mod_small.
Qed.

(** * Soundness against a board *)

Section Board.
Context (g : Minesweeper.t).

Lemma mine_count_empty : mine_count g ∅ = 0.
Proof.
  unfold mine_count. rewrite filter_empty_L by apply _. by rewrite size_empty.
Qed.

Lemma mine_count_remove_safe (X : gset Cell) (c : Cell) :
  Minesweeper.is_mine g c = false → mine_count g (X ∖ {[c]}) = mine_count g X.
Proof.
  intros Hc. unfold mine_count. do 2 f_equal.
  apply leibniz_equiv. intros x. rewrite !elem_of_filter.
  rewrite elem_of_difference, elem_of_singleton.
  split; [tauto|]. intros [Hx ?]. repeat split; try done. congruence.
Qed.

Lemma mine_count_remove_mine (X : gset Cell) (c : Cell) :
  c ∈ X → Minesweeper.is_mine g c = true →
  mine_count g (X ∖ {[c]}) = mine_count g X - 1.
Proof.
  intros HX Hc. unfold mine_count.
  assert (E : filter (λ c, Minesweeper.is_mine g c = true) (X ∖ {[c]})
              = filter (λ c, Minesweeper.is_mine g c = true) X ∖ {[c]}).
  { apply leibniz_equiv. intros x. rewrite elem_of_difference.
    rewrite !elem_of_filter, elem_of_difference. tauto. }
  rewrite E, size_difference, size_singleton.
  - assert (size (filter (λ c, Minesweeper.is_mine g c = true) X) ≠ 0%nat); [|lia].
    apply size_non_empty_iff. intros Hempty.
    apply (not_elem_of_empty (C:=gset Cell) c), Hempty.
    by apply elem_of_filter.
  - apply singleton_subseteq_l. by apply elem_of_filter.
Qed.

Lemma mine_count_add (X : gset Cell) (c : Cell) :
  c ∉ X →
  mine_count g ({[c]} ∪ X) = (if Minesweeper.is_mine g c then 1 else 0) + mine_count g X.
Proof.
  intros HX. unfold mine_count.
  rewrite filter_union_L by apply _. rewrite size_union.
  - destruct (Minesweeper.is_mine g c) eqn:Hc.
    + rewrite filter_singleton_True_L by (done || apply _).
      rewrite size_singleton. lia.
    + rewrite filter_singleton_False_L by (congruence || apply _).
      rewrite size_empty. lia.
  - intros x [_ ->%elem_of_singleton]%elem_of_filter [_ ?]%elem_of_filter.
    done.
Qed.

Lemma mine_count_difference (A B : gset Cell) :
  A ⊆ B → mine_count g (B ∖ A) = mine_count g B - mine_count g A.
Proof.
  intros HAB. unfold mine_count.
  assert (E : filter (λ c, Minesweeper.is_mine g c = true) (B ∖ A)
              = filter (λ c, Minesweeper.is_mine g c = true) B
                ∖ filter (λ c, Minesweeper.is_mine g c = true) A).
  { apply leibniz_equiv. intros x. rewrite elem_of_difference.
    rewrite !elem_of_filter, elem_of_difference. tauto. }
  assert (Hsub : filter (λ c, Minesweeper.is_mine g c = true) A
                 ⊆ filter (λ c, Minesweeper.is_mine g c = true) B).
  { intros x. rewrite !elem_of_filter. intros [? ?]. split; [done|].
    by apply HAB. }
  rewrite E, size_difference by done.
  apply subseteq_size in Hsub. lia.
Qed.

Lemma mine_count_zero (X : gset Cell) (c : Cell) :
  mine_count g X = 0 → c ∈ X → Minesweeper.is_mine g c = false.
Proof.
  unfold mine_count. intros H0 Hc.
  assert (Hsz : size (filter (λ c, Minesweeper.is_mine g c = true) X) = 0%nat) by lia.
  apply size_empty_iff in Hsz.
  destruct (Minesweeper.is_mine g c) eqn:E; [|done].
  destruct (not_elem_of_empty (C:=gset Cell) c). apply Hsz.
  by apply elem_of_filter.
Qed.

Lemma mine_count_full (X : gset Cell) (c : Cell) :
  mine_count g X = Z.of_nat (size X) → c ∈ X → Minesweeper.is_mine g c = true.
Proof.
  unfold mine_count. intros Hfull Hc.
  destruct (Minesweeper.is_mine g c) eqn:E; [done|]. exfalso.
  assert (Hsub : filter (λ c, Minesweeper.is_mine g c = true) X ⊆ X ∖ {[c]}).
  { intros x [Hx ?]%elem_of_filter.
    apply elem_of_difference. split; [done|].
    rewrite elem_of_singleton. congruence. }
  apply subseteq_size in Hsub.
  pose proof (size_remove_lt X c Hc). lia.
Qed.

Lemma holds_mark_safe (s : Sentence) (c : Cell) :
  Minesweeper.is_mine g c = false → holds g s → holds g (Sentence.mark_safe s c).
Proof.
  unfold holds, Sentence.mark_safe. intros Hc Hs.
  case_bool_decide; simpl; [|done]. by rewrite mine_count_remove_safe.
Qed.

Lemma holds_mark_mine (s : Sentence) (c : Cell) :
  Minesweeper.is_mine g c = true → holds g s → holds g (Sentence.mark_mine s c).
Proof.
  unfold holds, Sentence.mark_mine. intros Hc Hs.
  case_bool_decide; simpl; [|done].
  rewrite mine_count_remove_mine by done. lia.
Qed.

Lemma sound_mark_safe (a : AI) (c : Cell) :
  Minesweeper.is_mine g c = false → sound g a → sound g (mark_safe a c).
Proof.
  intros Hc (Hs & Hm & Hk). repeat split; simpl.
  - intros x [->%elem_of_singleton|Hx]%elem_of_union; auto.
  - done.
  - rewrite Forall_fmap. eapply Forall_impl; [exact Hk|].
    intros s Hs'. by apply holds_mark_safe.
Qed.

Lemma sound_mark_mine (a : AI) (c : Cell) :
  Minesweeper.is_mine g c = true → sound g a → sound g (mark_mine a c).
Proof.
  intros Hc (Hs & Hm & Hk). repeat split; simpl.
  - done.
  - intros x [->%elem_of_singleton|Hx]%elem_of_union; auto.
  - rewrite Forall_fmap. eapply Forall_impl; [exact Hk|].
    intros s Hs'. by apply holds_mark_mine.
Qed.

Lemma sound_set_knowledge (a : AI) (kb : list Sentence) :
  sound g a → Forall (holds g) kb → sound g (set_knowledge a kb).
Proof. intros (Hs & Hm & _) Hkb. by repeat split. Qed.

Lemma known_safes_sound (s : Sentence) (c : Cell) :
  holds g s → c ∈ Sentence.known_safes s → Minesweeper.is_mine g c = false.
Proof.
  unfold holds, Sentence.known_safes. intros Hs.
  case_bool_decide as H0; [|set_solver].
  apply mine_count_zero. by rewrite <- Hs.
Qed.

Lemma known_mines_sound (s : Sentence) (c : Cell) :
  holds g s → c ∈ Sentence.known_mines s → Minesweeper.is_mine g c = true.
Proof.
  unfold holds, Sentence.known_mines. intros Hs.
  destruct (bool_decide _ && _) eqn:E; [|set_solver].
  apply andb_true_iff in E as [E _]. apply bool_decide_eq_true_1 in E.
  apply mine_count_full. by rewrite <- Hs.
Qed.

Lemma sound_update_pass (a : AI) : sound g a → sound g (update_pass a).1.
Proof.
  intros Ha. rewrite update_pass_unfold; simpl.
  assert (Hkb : ∀ s, s ∈ knowledge a → holds g s).
  { apply Forall_forall, Ha. }
  set (b := fold_left mark_mine _ _).
  assert (Hb : sound g b).
  { apply (fold_left_invariant (sound g)).
    - apply (fold_left_invariant (sound g)); [done|].
      intros a' c Hc. apply sound_mark_safe.
      apply elem_of_elements, scan_safes in Hc as (s & Hs & Hc).
      eapply known_safes_sound; eauto.
    - intros a' c Hc. apply sound_mark_mine.
      apply elem_of_elements, scan_mines in Hc as (s & Hs & Hc).
      eapply known_mines_sound; eauto. }
  apply sound_set_knowledge; [done|].
  destruct Hb as (_ & _ & Hb). rewrite Forall_forall in Hb.
  apply Forall_forall. intros s [_ Hs]%list_elem_of_filter. by apply Hb.
Qed.

Lemma sound_update_loop (fuel : nat) (a b : AI) :
  update_loop fuel a = Some b → sound g a → sound g b.
Proof.
  revert a. induction fuel as [|fuel IH]; intros a; simpl; [done|].
  pose proof (sound_update_pass a) as Hp.
  destruct (update_pass a) as [a' [|]]; simpl in Hp.
  - intros H Ha. apply (IH a'); auto.
  - intros [= <-]. exact Hp.
Qed.

Lemma sound_update_knowledge (a : AI) : sound g a → sound g (update_knowledge a).
Proof.
  unfold update_knowledge.
  destruct (update_loop _ a) as [b|] eqn:E; simpl; [|done].
  by eapply sound_update_loop.
Qed.

Lemma holds_infer_pair (nk : list Sentence) (s1 s2 : Sentence) :
  holds g s1 → holds g s2 →
  Forall (holds g) nk → Forall (holds g) (infer_pair nk s1 s2).
Proof.
  intros H1 H2 Hnk. unfold infer_pair.
  repeat case_bool_decide; try done.
  apply Forall_app_2; [done|]. apply Forall_singleton.
  unfold holds in *; simpl. rewrite mine_count_difference by done. lia.
Qed.

Lemma sound_infer_new_sentences (a : AI) :
  sound g a → sound g (infer_new_sentences a).
Proof.
  intros Ha. pose proof Ha as (_ & _ & Hk).
  apply sound_set_knowledge; [done|].
  apply Forall_app_2; [done|].
  rewrite Forall_forall in Hk. unfold inferred.
  apply (fold_left_invariant (Forall (holds g))); [by apply Forall_nil|].
  intros nk s1 Hs1 Hnk.
  apply (fold_left_invariant (Forall (holds g))); [done|].
  intros nk' s2 Hs2. apply holds_infer_pair; auto.
Qed.

End Board.

(** ** The new sentence of [add_knowledge] is true of the board *)

Lemma range_around (x : Z) : range (x - 1) (x + 2) = [x - 1; x; x + 1].
Proof.
  unfold range. replace (x + 2 - (x - 1)) with 3 by lia.
  unfold seqZ; simpl.
  assert (E0 : Z.of_nat 0 + (x - 1) = x - 1) by lia.
  assert (E1 : Z.of_nat 1 + (x - 1) = x) by lia.
  assert (E2 : Z.of_nat 2 + (x - 1) = x + 1) by lia.
  by rewrite E0, E1, E2.
Qed.

Lemma neighbor_scan_offsets (a : AI) (r c : Z) :
  neighbor_scan a (r, c)
  = fold_left (λ acc d, visit a r c acc d.1 d.2) offsets (∅, 0).
Proof. reflexivity. Qed.

Lemma nearby_mines_offsets (g : Minesweeper.t) (r c : Z) :
  Minesweeper.nearby_mines g (r, c)
  = fold_left (λ count d, Minesweeper.tally g (r, c) count (r + d.1) (c + d.2))
              offsets 0.
Proof.
  unfold Minesweeper.nearby_mines.
  cbn [fst snd]. rewrite !range_around.
  cbn [fold_left offsets fst snd].
  rewrite !Z.add_0_r. reflexivity.
Qed.

Lemma NoDup_offsets : NoDup offsets.
Proof. apply (bool_decide_unpack _). by vm_compute. Qed.

Section NewSentence.
Context (g : Minesweeper.t) (a : AI).
Hypothesis Hheight : height a = Minesweeper.height g.
Hypothesis Hwidth : width a = Minesweeper.width g.
Hypothesis Hsafes : ∀ x, x ∈ safes a → Minesweeper.is_mine g x = false.
Hypothesis Hmines : ∀ x, x ∈ mines a → Minesweeper.is_mine g x = true.

(** One step of the neighbour loop of the engine against the same step of
    the board's count. *)
Lemma visit_tally (r c : Z) (nc : gset Cell) (kn cnt : Z) (d : Z * Z) :
  (r + d.1, c + d.2) ∉ nc →
  mine_count g (visit a r c (nc, kn) d.1 d.2).1
    + (visit a r c (nc, kn) d.1 d.2).2
    - Minesweeper.tally g (r, c) cnt (r + d.1) (c + d.2)
  = mine_count g nc + kn - cnt
  ∧ (visit a r c (nc, kn) d.1 d.2).1 ⊆ {[(r + d.1, c + d.2)]} ∪ nc.
Proof.
  destruct d as [dr dc]; simpl. intros Hfresh.
  unfold visit, Minesweeper.tally. rewrite Hheight, Hwidth; simpl.
  destruct ((dr =? 0) && (dc =? 0)) eqn:E0.
  - apply andb_true_iff in E0 as [->%Z.eqb_eq ->%Z.eqb_eq].
    rewrite !Z.add_0_r. rewrite (bool_decide_eq_true_2 ((r, c) = (r, c))) by done.
    simpl. split; [lia|set_solver].
  - rewrite (bool_decide_eq_false_2 ((r + dr, c + dc) = (r, c))).
    2:{ intros [= ? ?]. apply andb_false_iff in E0 as [E0|E0];
          apply Z.eqb_neq in E0; lia. }
    destruct (_ && _ && _ && _); [|simpl; split; [lia|set_solver]].
    pose proof (Hsafes (r + dr, c + dc)) as Hs.
    pose proof (Hmines (r + dr, c + dc)) as Hm.
    simpl in Hs, Hm.
    repeat case_bool_decide; simpl.
    + rewrite Hm by done. split; [lia|set_solver].
    + rewrite mine_count_add by done. simpl.
      destruct (Minesweeper.board_at g _ _); split; (lia || set_solver).
    + rewrite Hs by done. split; [lia|set_solver].
Qed.

Lemma scan_tally (r c : Z) (ds : list (Z * Z)) :
  NoDup ds →
  ∀ (nc : gset Cell) (kn cnt : Z),
    (∀ d, d ∈ ds → (r + d.1, c + d.2) ∉ nc) →
    mine_count g (fold_left (λ acc d, visit a r c acc d.1 d.2) ds (nc, kn)).1
      + (fold_left (λ acc d, visit a r c acc d.1 d.2) ds (nc, kn)).2
      - fold_left
          (λ count d, Minesweeper.tally g (r, c) count (r + d.1) (c + d.2))
          ds cnt
    = mine_count g nc + kn - cnt.
Proof.
  induction 1 as [|d ds Hd Hnd IH]; intros nc kn cnt Hfresh; [done|].
  cbn [fold_left].
  destruct (visit_tally r c nc kn cnt d) as [Heq Hsub].
  { apply Hfresh. left. }
  destruct (visit a r c (nc, kn) d.1 d.2) as [nc' kn'] eqn:E.
  rewrite IH; [exact Heq|].
  intros d' Hd' Hin. apply Hsub in Hin.
  apply elem_of_union in Hin as [Hin|Hin].
  - apply elem_of_singleton in Hin. injection Hin as H1 H2.
    assert (d' = d); [|by subst].
    destruct d, d'; simpl in *. f_equal; lia.
  - revert Hin. apply Hfresh. by right.
Qed.

Lemma neighbor_scan_holds (cell : Cell) :
  holds g (Sentence.mk (neighbor_scan a cell).1
             (Minesweeper.nearby_mines g cell - (neighbor_scan a cell).2)).
Proof.
  destruct cell as [r c]. unfold holds.
  cbn [Sentence.cells Sentence.count].
  rewrite neighbor_scan_offsets, nearby_mines_offsets.
  assert (Hfresh : ∀ d : Z * Z, d ∈ offsets → (r + d.1, c + d.2) ∉ (∅ : gset Cell))
    by set_solver.
  pose proof (scan_tally r c offsets NoDup_offsets ∅ 0 0 Hfresh) as H.
  rewrite mine_count_empty in H. lia.
Qed.

End NewSentence.

Lemma sound_observe (g : Minesweeper.t) (a : AI) (c : Cell) (k : Z) :
  height a = Minesweeper.height g → width a = Minesweeper.width g →
  contract g (c, k) → sound g a → sound g (observe a c k).
Proof.
  intros Hh Hw (_ & Hc & Hk) Ha. simpl in Hc, Hk.
  set (a1 := mark_safe (set_moves_made a ({[c]} ∪ moves_made a)) c).
  assert (H1 : sound g a1).
  { apply sound_mark_safe; [done|]. destruct Ha as (?&?&?). by repeat split. }
  pose proof (neighbor_scan_holds g a1 Hh Hw (proj1 H1) (proj1 (proj2 H1)) c)
    as Hnew.
  unfold observe. fold a1.
  destruct (neighbor_scan a1 c) as [nc kn]; simpl in Hnew.
  case_bool_decide; [|done].
  apply sound_set_knowledge; [done|].
  apply Forall_app_2; [apply H1|]. apply Forall_singleton. by rewrite Hk.
Qed.

Lemma sound_add_knowledge (g : Minesweeper.t) (a : AI) (c : Cell) (k : Z) :
  height a = Minesweeper.height g → width a = Minesweeper.width g →
  contract g (c, k) → sound g a → sound g (add_knowledge a c k).
Proof.
  intros Hh Hw Hc Ha. unfold add_knowledge.
  apply sound_infer_new_sentences, sound_update_knowledge.
  by apply sound_observe.
Qed.

Lemma run_grid (a : AI) (obs : list (Cell * Z)) :
  height (run a obs) = height a ∧ width (run a obs) = width a.
Proof.
  unfold run.
  apply (fold_left_invariant (λ b, height b = height a ∧ width b = width a));
    [done|].
  intros b [c k] _ [Hh Hw].
  destruct (add_knowledge_sets b c k) as (Eh & Ew & _). by rewrite Eh, Ew.
Qed.

Lemma sound_run (g : Minesweeper.t) (obs : list (Cell * Z)) :
  Forall (contract g) obs →
  sound g (run (init (Minesweeper.height g) (Minesweeper.width g)) obs).
Proof.
  intros Hobs. rewrite Forall_forall in Hobs. unfold run.
  apply (fold_left_invariant
           (λ b, sound g b ∧ height b = Minesweeper.height g
                 ∧ width b = Minesweeper.width g)).
  - repeat split; simpl; first [by apply Forall_nil | set_solver].
  - intros b [c k] Hin (Hb & Hh & Hw).
    destruct (add_knowledge_sets b c k) as (Eh & Ew & _).
    split; [|by rewrite Eh, Ew].
    apply sound_add_knowledge; auto.
Qed.

Lemma sound_disjoint (g : Minesweeper.t) (a : AI) :
  sound g a → safes a ∩ mines a = ∅.
Proof.
  intros (Hs & Hm & _).
  apply leibniz_equiv, elem_of_equiv_empty.
  intros c [H1 H2]%elem_of_intersection.
  apply Hs in H1. apply Hm in H2. congruence.
Qed.

(** C4. On a board [g], take a sequence of [add_knowledge] calls that
    respects the caller's contract (each observed cell is on the grid and is
    not a mine, each count is the board's count of mines around the cell),
    made on a new engine for that board.  After any number [n] of these
    calls no cell is both in [safes] and in [mines]; the same holds inside
    the next call, after its steps 1 to 3 and after its loop. *)
Theorem safes_mines_disjoint (g : Minesweeper.t) (obs : list (Cell * Z))
    (n : nat) :
  Minesweeper.wf g →
  Forall (contract g) obs →
  safes (run (init (Minesweeper.height g) (Minesweeper.width g)) (take n obs))
  ∩ mines (run (init (Minesweeper.height g) (Minesweeper.width g)) (take n obs))
  = ∅ ∧
  ∀ c k, obs !! n = Some (c, k) →
    safes (observe
             (run (init (Minesweeper.height g) (Minesweeper.width g)) (take n obs))
             c k)
    ∩ mines (observe
               (run (init (Minesweeper.height g) (Minesweeper.width g)) (take n obs))
               c k) = ∅ ∧
    safes (update_knowledge (observe
             (run (init (Minesweeper.height g) (Minesweeper.width g)) (take n obs))
             c k))
    ∩ mines (update_knowledge (observe
               (run (init (Minesweeper.height g) (Minesweeper.width g)) (take n obs))
               c k)) = ∅.
Proof.
  intros _ Hobs.
  assert (Hn : Forall (contract g) (take n obs)) by by apply Forall_take.
  pose proof (sound_run g (take n obs) Hn) as Ha.
  destruct (run_grid (init (Minesweeper.height g) (Minesweeper.width g))
              (take n obs)) as [Hh Hw]. simpl in Hh, Hw.
  split; [by eapply sound_disjoint|].
  intros c k Hck.
  assert (Hc : contract g (c, k)).
  { rewrite Forall_forall in Hobs. eapply Hobs, list_elem_of_lookup_2, Hck. }
  pose proof (sound_observe g _ c k Hh Hw Hc Ha) as Ho.
  split; [by eapply sound_disjoint|].
  eapply sound_disjoint, sound_update_knowledge, Ho.
Qed.

(** * The pairwise-inference pass *)

Lemma infer_pair_mono (nk : list Sentence) (s1 s2 x : Sentence) :
  x ∈ nk → x ∈ infer_pair nk s1 s2.
Proof.
  intros Hx. unfold infer_pair.
  repeat case_bool_decide; try done. apply elem_of_app. by left.
Qed.

Lemma infer_row_mono (kb nk : list Sentence) (s1 x : Sentence) :
  x ∈ nk → x ∈ fold_left (λ nk s2, infer_pair nk s1 s2) kb nk.
Proof.
  intros Hx. apply (fold_left_invariant (λ nk, x ∈ nk)); [done|].
  intros nk' s2 _. apply infer_pair_mono.
Qed.

Lemma infer_rows_mono (rows kb nk : list Sentence) (x : Sentence) :
  x ∈ nk →
  x ∈ fold_left (λ nk s1, fold_left (λ nk s2, infer_pair nk s1 s2) kb nk)
        rows nk.
Proof.
  intros Hx. apply (fold_left_invariant (λ nk, x ∈ nk)); [done|].
  intros nk' s1 _. apply infer_row_mono.
Qed.

Lemma infer_pair_adds (nk : list Sentence) (s1 s2 : Sentence) :
  s1 ≠ s2 → Sentence.cells s1 ⊆ Sentence.cells s2 →
  Sentence.mk (Sentence.cells s2 ∖ Sentence.cells s1)
              (Sentence.count s2 - Sentence.count s1)
  ∈ infer_pair nk s1 s2.
Proof.
  intros Hne Hsub. unfold infer_pair.
  rewrite bool_decide_eq_false_2 by done.
  rewrite (bool_decide_eq_true_2 (Sentence.cells s1 ⊆ Sentence.cells s2))
    by done.
  case_bool_decide; [done|]. apply elem_of_app. right. by left.
Qed.

Lemma infer_row_adds (kb nk : list Sentence) (s1 s2 : Sentence) :
  s2 ∈ kb → s1 ≠ s2 → Sentence.cells s1 ⊆ Sentence.cells s2 →
  Sentence.mk (Sentence.cells s2 ∖ Sentence.cells s1)
              (Sentence.count s2 - Sentence.count s1)
  ∈ fold_left (λ nk s2, infer_pair nk s1 s2) kb nk.
Proof.
  intros Hin Hne Hsub. revert nk.
  induction kb as [|s kb IH]; intros nk; [by apply elem_of_nil in Hin|].
  simpl. apply elem_of_cons in Hin as [<-|Hin].
  - apply infer_row_mono. by apply infer_pair_adds.
  - by apply IH.
Qed.

Lemma infer_rows_adds (rows kb nk : list Sentence) (s1 s2 : Sentence) :
  s1 ∈ rows → s2 ∈ kb → s1 ≠ s2 →
  Sentence.cells s1 ⊆ Sentence.cells s2 →
  Sentence.mk (Sentence.cells s2 ∖ Sentence.cells s1)
              (Sentence.count s2 - Sentence.count s1)
  ∈ fold_left (λ nk s1, fold_left (λ nk s2, infer_pair nk s1 s2) kb nk)
      rows nk.
Proof.
  intros H1 H2 Hne Hsub. revert nk.
  induction rows as [|s rows IH]; intros nk; [by apply elem_of_nil in H1|].
  simpl. apply elem_of_cons in H1 as [<-|H1].
  - apply infer_rows_mono. by apply infer_row_adds.
  - by apply IH.
Qed.

(** Every pair of different sentences with the cells of the first among
    the cells of the second contributes its difference to the batch. *)
Lemma inferred_complete (kb : list Sentence) (s1 s2 : Sentence) :
  s1 ∈ kb → s2 ∈ kb → s1 ≠ s2 →
  Sentence.cells s1 ⊆ Sentence.cells s2 →
  Sentence.mk (Sentence.cells s2 ∖ Sentence.cells s1)
              (Sentence.count s2 - Sentence.count s1)
  ∈ inferred kb.
Proof. intros. by apply infer_rows_adds. Qed.

(** The batch itself holds no sentence twice: a derived sentence is
    appended to it only when it is not in it yet. *)
Lemma infer_pair_NoDup (nk : list Sentence) (s1 s2 : Sentence) :
  NoDup nk → NoDup (infer_pair nk s1 s2).
Proof.
  intros Hnk. unfold infer_pair.
  repeat case_bool_decide; try done.
  apply NoDup_app. split; [done|]. split; [|apply NoDup_singleton].
  intros x Hx ->%list_elem_of_singleton. done.
Qed.

Lemma inferred_NoDup (kb : list Sentence) : NoDup (inferred kb).
Proof.
  unfold inferred.
  apply (fold_left_invariant (@NoDup Sentence)); [apply NoDup_nil_2|].
  intros nk s1 _ Hnk.
  apply (fold_left_invariant (@NoDup Sentence)); [done|].
  intros nk' s2 _. apply infer_pair_NoDup.
Qed.

(** C1. The pass adds a derived sentence that the knowledge base already
    holds.  On the board [board_2x5] the three calls of [calls_2x5] respect
    the caller's contract; the second call derives [{(0,2), (1,2)} = 1]; in the
    third call that sentence is in the knowledge base when the pass starts,
    the pass derives it again and appends it, and the knowledge base ends
    with two equal sentences. *)
Theorem infer_new_sentences_repeats_known_sentence :
  Minesweeper.wf board_2x5 ∧ Forall (contract board_2x5) calls_2x5 ∧
  run (init 2 5) calls_2x5 = infer_new_sentences before_inference_2x5 ∧
  derived_2x5 ∈ knowledge before_inference_2x5 ∧
  derived_2x5 ∈ inferred (knowledge before_inference_2x5) ∧
  ¬ NoDup (knowledge (run (init 2 5) calls_2x5)).
Proof.
  split; [|split; [|split; [|split; [|split]]]].
  - unfold Minesweeper.wf; simpl. repeat split; try lia.
    repeat constructor.
  - repeat constructor; simpl; try lia; by vm_compute.
  - apply (run_snoc (init 2 5) (take 2 calls_2x5) (0, 4) 1).
  - apply (bool_decide_unpack _). by vm_compute.
  - apply (bool_decide_unpack _). by vm_compute.
  - apply (bool_decide_unpack _). by vm_compute.
Qed.

(** * An observed cell off the grid *)

(** C2, as stated, fails: [add_knowledge] has no bounds test on the
    observed cell.  On a 2 by 2 grid the call with the cell [(-1, 0)] and
    count 0 changes the state: the cell is recorded as a move and as safe,
    and its two neighbours on the grid are marked safe. *)
Lemma add_knowledge_out_of_bounds_proceeds :
  ¬ in_bounds 2 2 (-1, 0) ∧
  add_knowledge (init 2 2) (-1, 0) 0 ≠ init 2 2 ∧
  moves_made (add_knowledge (init 2 2) (-1, 0) 0) = {[(-1, 0)]} ∧
  safes (add_knowledge (init 2 2) (-1, 0) 0) = {[(-1, 0); (0, 0); (0, 1)]}.
Proof.
  split; [|split; [|split]].
  - unfold in_bounds; simpl. lia.
  - intros H. apply (f_equal moves_made) in H. revert H.
    apply (bool_decide_unpack _). by vm_compute.
  - apply (bool_decide_unpack _). by vm_compute.
  - apply (bool_decide_unpack _). by vm_compute.
Qed.

(** * The subset-inference example *)

Lemma fold_mark_safe_marks (l : list Cell) (a : AI) (x : Cell) :
  x ∈ l → x ∈ safes (fold_left mark_safe l a).
Proof.
  revert a. induction l as [|y l IH]; intros a Hx; [by apply elem_of_nil in Hx|].
  simpl. apply elem_of_cons in Hx as [->|Hx]; [|by apply IH].
  destruct (fold_mark_safe_extends l (mark_safe a y)) as (_&_&_&_&Hs).
  apply Hs. simpl. set_solver.
Qed.

(** The cells of a sentence with count 0 are safe after the first
    iteration of the loop. *)
Lemma update_pass_marks_safes (a : AI) (x : Cell) :
  x ∈ (scan (knowledge a)).1 → x ∈ safes (update_pass a).1.
Proof.
  intros Hx. rewrite update_pass_unfold; simpl.
  destruct (fold_mark_mine_extends (elements (scan (knowledge a)).2)
              (fold_left mark_safe (elements (scan (knowledge a)).1) a))
    as (_&_&_&_&Hs).
  apply Hs, fold_mark_safe_marks. by apply elem_of_elements.
Qed.

Lemma update_knowledge_marks_safes (a : AI) (x : Cell) :
  x ∈ (scan (knowledge a)).1 → x ∈ safes (update_knowledge a).
Proof.
  intros Hx.
  pose proof (update_loop_result a) as Hloop.
  simpl in Hloop. pose proof (update_pass_marks_safes a x Hx) as Hp.
  destruct (update_pass a) as [a' [|]]; simpl in Hp.
  - apply update_loop_extends in Hloop as (_&_&_&_&Hs). by apply Hs.
  - by injection Hloop as <-.
Qed.

(** A sentence with count 0 that is in the knowledge base when
    [add_knowledge] is called has all its cells in [safes] when the call
    returns. *)
Lemma add_knowledge_marks_zero_sentence (a : AI) (s : Sentence)
    (c x : Cell) (k : Z) :
  s ∈ knowledge a → Sentence.count s = 0 → x ∈ Sentence.cells s →
  x ∈ safes (add_knowledge a c k).
Proof.
  intros Hs H0 Hx.
  destruct (decide (x = c)) as [->|Hne].
  { destruct (add_knowledge_sets a c k) as (_&_&_&_&Hsafes). set_solver. }
  unfold add_knowledge.
  destruct (infer_new_sentences_extends (update_knowledge (observe a c k)))
    as (_&_&_&_&Hsafes).
  apply Hsafes, update_knowledge_marks_safes, scan_safes.
  exists (Sentence.mark_safe s c). split.
  - unfold observe. destruct (neighbor_scan _ c) as [nc kn].
    assert (Hin : Sentence.mark_safe s c
                  ∈ knowledge (mark_safe
                      (set_moves_made a ({[c]} ∪ moves_made a)) c)).
    { simpl. by apply (list_elem_of_fmap_2 (λ s, Sentence.mark_safe s c)). }
    case_bool_decide; [|done]. simpl. apply elem_of_app. by left.
  - unfold Sentence.known_safes.
    rewrite sentence_mark_safe_count, bool_decide_eq_true_2 by done.
    rewrite sentence_mark_safe_cells. set_solver.
Qed.

(** C6, as stated, fails.  The first three calls of [calls_2x3], on a 2 by
    3 grid, respect the caller's contract for [board_2x3].  In the third
    call the knowledge
    base holds [example_A] and [example_B] when the inference pass starts
    and the pass adds [example_derived], but [(0, 2)] is not in [safes]
    when the call returns: the loop of [update_knowledge] has run before
    the pass. *)
Lemma derived_cell_not_safe_in_same_call :
  Minesweeper.wf board_2x3 ∧ Forall (contract board_2x3) (take 3 calls_2x3) ∧
  run (init 2 3) (take 3 calls_2x3) = infer_new_sentences before_inference_2x3 ∧
  example_A ∈ knowledge before_inference_2x3 ∧
  example_B ∈ knowledge before_inference_2x3 ∧
  example_derived ∈ knowledge (run (init 2 3) (take 3 calls_2x3)) ∧
  (0, 2) ∉ safes (run (init 2 3) (take 3 calls_2x3)).
Proof.
  split; [|split; [|split; [|split; [|split; [|split]]]]].
  - unfold Minesweeper.wf; simpl. repeat split; try lia.
    repeat constructor.
  - repeat constructor; simpl; try lia; by vm_compute.
  - apply (run_snoc (init 2 3) (take 2 calls_2x3) (1, 1) 1).
  - apply (bool_decide_unpack _). by vm_compute.
  - apply (bool_decide_unpack _). by vm_compute.
  - apply (bool_decide_unpack _). by vm_compute.
  - apply (bool_decide_unpack _). by vm_compute.
Qed.

(** C6, amended. When the knowledge base holds [example_A] and
    [example_B], the inference pass adds [example_derived], that is
    [{(0,2)} = 0], to the knowledge base and leaves [safes] as it is; the
    cell [(0, 2)] is in [safes] when the next [add_knowledge] call, whatever
    its arguments, returns. *)
Theorem subset_inference_example (ai : AI) :
  example_A ∈ knowledge ai → example_B ∈ knowledge ai →
  example_derived ∈ knowledge (infer_new_sentences ai) ∧
  safes (infer_new_sentences ai) = safes ai ∧
  ∀ (c : Cell) (k : Z), (0, 2) ∈ safes (add_knowledge (infer_new_sentences ai) c k).
Proof.
  intros HA HB.
  assert (Hd : example_derived ∈ knowledge (infer_new_sentences ai)).
  { simpl. apply elem_of_app. right.
    assert (E : example_derived
                = Sentence.mk (Sentence.cells example_B ∖ Sentence.cells example_A)
                    (Sentence.count example_B - Sentence.count example_A)).
    { apply (bool_decide_unpack _). by vm_compute. }
    rewrite E. apply inferred_complete; try done.
    apply (bool_decide_unpack _). by vm_compute. }
  split; [done|]. split; [done|].
  intros c k.
  apply (add_knowledge_marks_zero_sentence _ example_derived); [done|done|].
  simpl. by apply elem_of_singleton.
Qed.

(** * The theorems at concrete inputs *)

(** The loop on the single sentence [{(1,1)} = 1]: one iteration marks
    [(1, 1)] as a mine and drops the emptied sentence. *)
Lemma update_knowledge_terminates_witness :
  update_pass saturation_start = (saturation_end, true) ∧
  (total_cells (knowledge saturation_end)
   < total_cells (knowledge saturation_start))%nat ∧
  update_knowledge saturation_start = saturation_end.
Proof.
  assert (E : update_pass saturation_start = (saturation_end, true)).
  { vm_compute. reflexivity. }
  split; [exact E|]. split.
  - exact (proj1 (proj2 (update_knowledge_terminates saturation_start))
             saturation_end E).
  - vm_compute. reflexivity.
Defined.

(** The four calls of [calls_2x3] on [board_2x3]: the engine finds the mine
    at [(0, 1)]. *)
Lemma safes_mines_disjoint_witness :
  Minesweeper.wf board_2x3 ∧ Forall (contract board_2x3) calls_2x3 ∧
  (0, 1) ∈ mines (run (init 2 3) calls_2x3) ∧
  safes (run (init 2 3) calls_2x3) ∩ mines (run (init 2 3) calls_2x3) = ∅.
Proof.
  assert (Hwf : Minesweeper.wf board_2x3).
  { unfold Minesweeper.wf; simpl. repeat split; try lia. repeat constructor. }
  assert (Hobs : Forall (contract board_2x3) calls_2x3).
  { repeat constructor; simpl; try lia; vm_compute; reflexivity. }
  split; [exact Hwf|]. split; [exact Hobs|]. split.
  - apply (bool_decide_unpack _). vm_compute. exact I.
  - exact (proj1 (safes_mines_disjoint board_2x3 calls_2x3 4 Hwf Hobs)).
Defined.

(** The cell [(1, 0)], safe after a first call, is still safe after a
    second one. *)
Lemma safes_and_mines_only_grow_witness :
  (1, 0) ∈ safes (add_knowledge (init 2 3) (1, 0) 1) ∧
  (1, 0) ∈ safes (run (add_knowledge (init 2 3) (1, 0) 1) [((1, 2), 1)]).
Proof.
  assert (H : (1, 0) ∈ safes (add_knowledge (init 2 3) (1, 0) 1)).
  { apply (bool_decide_unpack _). vm_compute. exact I. }
  split; [exact H|].
  exact (proj1 (safes_and_mines_only_grow
                  (add_knowledge (init 2 3) (1, 0) 1) [((1, 2), 1)] (1, 0)) H).
Defined.

(** The example at the state of the third call of [calls_2x3]. *)
Lemma subset_inference_example_witness :
  example_A ∈ knowledge before_inference_2x3 ∧
  example_B ∈ knowledge before_inference_2x3 ∧
  example_derived ∈ knowledge (infer_new_sentences before_inference_2x3) ∧
  (0, 2) ∈ safes (add_knowledge (infer_new_sentences before_inference_2x3)
                    (0, 0) 1).
Proof.
  pose (st := before_inference_2x3).
  assert (HA : example_A ∈ knowledge st).
  { apply (bool_decide_unpack _). vm_compute. exact I. }
  assert (HB : example_B ∈ knowledge st).
  { apply (bool_decide_unpack _). vm_compute. exact I. }
  split; [exact HA|]. split; [exact HB|]. split.
  - exact (proj1 (subset_inference_example st HA HB)).
  - exact (proj2 (proj2 (subset_inference_example st HA HB)) (0, 0) 1).
Defined.

(** After one call on a 2 by 2 engine the draw 0 gives the cell [(0, 1)]. *)
Lemma make_random_move_spec_witness :
  make_random_move (add_knowledge (init 2 2) (0, 0) 1) 0 = Some (0, 1) ∧
  candidate (add_knowledge (init 2 2) (0, 0) 1) (0, 1) ∧
  ((0, 1) ∉ moves_made (add_knowledge (init 2 2) (0, 0) 1)) ∧
  ((0, 1) ∉ mines (add_knowledge (init 2 2) (0, 0) 1)).
Proof.
  pose (ai := add_knowledge (init 2 2) (0, 0) 1).
  assert (E : make_random_move ai 0 = Some (0, 1)).
  { vm_compute. reflexivity. }
  split; [exact E|].
  exact (proj1 (proj2 (proj2 (make_random_move_spec ai))) 0%nat (0, 1) E).
Defined.

(** One call on a new 2 by 2 engine. *)
Lemma moves_made_subset_safes_witness :
  moves_made (init 2 2) ⊆ safes (init 2 2) ∧
  moves_made (add_knowledge (init 2 2) (0, 0) 1)
  ⊆ safes (add_knowledge (init 2 2) (0, 0) 1).
Proof.
  assert (H : moves_made (init 2 2) ⊆ safes (init 2 2)).
  { apply (bool_decide_unpack _). vm_compute. exact I. }
  split; [exact H|].
  exact (proj2 moves_made_subset_safes (init 2 2) (0, 0) 1 H).
Defined.

(** The sentence built for the observed cell [(-1, 0)] on a 2 by 2 grid. *)
Lemma sentence_cells_in_bounds_witness :
  example_A ∈ knowledge (run_ops (init 2 2) [AddKnowledge (-1, 0) 1]) ∧
  (0, 1) ∈ Sentence.cells example_A ∧
  0 ≤ (0, 1).1 < 2 ∧ 0 ≤ (0, 1).2 < 2.
Proof.
  pose (s := example_A).
  assert (Hs : s ∈ knowledge (run_ops (init 2 2) [AddKnowledge (-1, 0) 1])).
  { apply (bool_decide_unpack _). vm_compute. exact I. }
  assert (Hc : (0, 1) ∈ Sentence.cells s).
  { apply (bool_decide_unpack _). vm_compute. exact I. }
  split; [exact Hs|]. split; [exact Hc|].
  exact (sentence_cells_in_bounds 2 2 [AddKnowledge (-1, 0) 1] s (0, 1) Hs Hc).
Defined.

(** * Further properties of sentences *)

(** X1. [known_mines] is non-empty exactly when the count is the number of
    cells and is not 0, [known_safes] exactly when the count is 0 and there
    are cells; a non-empty answer is the whole cell set, and the two are
    never non-empty together. *)
Theorem known_sets_spec (s : Sentence) :
  (Sentence.known_mines s ≠ ∅ ↔
     Sentence.count s = Z.of_nat (size (Sentence.cells s)) ∧ Sentence.count s ≠ 0) ∧
  (Sentence.known_safes s ≠ ∅ ↔
     Sentence.count s = 0 ∧ Sentence.cells s ≠ ∅) ∧
  (Sentence.known_mines s = ∅ ∨ Sentence.known_mines s = Sentence.cells s) ∧
  (Sentence.known_safes s = ∅ ∨ Sentence.known_safes s = Sentence.cells s) ∧
  (Sentence.known_mines s = ∅ ∨ Sentence.known_safes s = ∅).
Proof.
  destruct s as [X n]. unfold Sentence.known_mines, Sentence.known_safes; simpl.
  destruct (decide (n = 0)) as [->|Hn].
  - rewrite (bool_decide_eq_true_2 (0 = 0)) by done.
    rewrite andb_false_r. simpl.
    split; [|split; [|split; [|split]]]; auto.
    + split; [done|]. by intros [_ ?].
    + tauto.
  - rewrite (bool_decide_eq_false_2 (n = 0)) by done. rewrite andb_true_r.
    simpl. case_bool_decide as Hsz.
    + split; [|split; [|split; [|split]]]; auto.
      * split; [done|]. intros _ HX. rewrite HX, size_empty in Hsz. lia.
      * split; [done|]. by intros [? _].
    + split; [|split; [|split; [|split]]]; auto.
      * split; [done|]. by intros [? _].
      * split; [done|]. by intros [? _].
Qed.

(** X2. On one sentence the first marking of a cell wins: marking it again,
    as a mine or as safe, changes nothing; marking a cell that the sentence
    does not hold changes nothing; and markings of two different cells can
    be done in either order. *)
Theorem sentence_marks_compose (s : Sentence) (c1 c2 : Cell) :
  Sentence.mark_mine (Sentence.mark_safe s c1) c1 = Sentence.mark_safe s c1 ∧
  Sentence.mark_safe (Sentence.mark_mine s c1) c1 = Sentence.mark_mine s c1 ∧
  (c1 ∉ Sentence.cells s →
     Sentence.mark_mine s c1 = s ∧ Sentence.mark_safe s c1 = s) ∧
  (c1 ≠ c2 →
     Sentence.mark_mine (Sentence.mark_safe s c1) c2
     = Sentence.mark_safe (Sentence.mark_mine s c2) c1).
Proof.
  split; [|split; [|split]].
  - unfold Sentence.mark_mine at 1.
    rewrite bool_decide_eq_false_2; [done|].
    rewrite sentence_mark_safe_cells. set_solver.
  - unfold Sentence.mark_safe at 1.
    rewrite bool_decide_eq_false_2; [done|].
    rewrite sentence_mark_mine_cells. set_solver.
  - intros Hc. unfold Sentence.mark_mine, Sentence.mark_safe.
    by rewrite !bool_decide_eq_false_2.
  - intros Hne. destruct s as [X n].
    unfold Sentence.mark_mine, Sentence.mark_safe; simpl.
    repeat (case_bool_decide; simpl); f_equal; set_solver.
Qed.

Lemma sentence_marks_compose_witness :
  ((0, 0) ∉ Sentence.cells example_derived) ∧
  Sentence.mark_mine example_derived (0, 0) = example_derived ∧
  (0, 0) ≠ (0, 1) ∧
  Sentence.mark_mine (Sentence.mark_safe example_B (0, 0)) (0, 1)
  = Sentence.mark_safe (Sentence.mark_mine example_B (0, 1)) (0, 0).
Proof.
  assert (H1 : (0, 0) ∉ Sentence.cells example_derived).
  { apply (bool_decide_unpack _). vm_compute. exact I. }
  assert (H2 : (0, 0) ≠ ((0, 1) : Cell)) by discriminate.
  split; [exact H1|]. split.
  - exact (proj1 (proj1 (proj2 (proj2
             (sentence_marks_compose example_derived (0, 0) (0, 0)))) H1)).
  - split; [exact H2|].
    exact (proj2 (proj2 (proj2
             (sentence_marks_compose example_B (0, 0) (0, 1)))) H2).
Defined.

Lemma mine_count_le_size (g : Minesweeper.t) (X : gset Cell) :
  0 ≤ mine_count g X ≤ Z.of_nat (size X).
Proof.
  unfold mine_count. split; [lia|].
  apply inj_le, subseteq_size. intros x [_ Hx]%elem_of_filter. done.
Qed.

(** X3. For a sentence that is true of a board: its count lies between 0
    and its number of cells, every cell of [known_safes] is free of a mine
    and every cell of [known_mines] is a mine; marking a cell that is not a
    mine as safe, or a mine as a mine, leaves the sentence true, and the
    wrong marking of one of its cells makes it false. *)
Theorem sentence_truth (g : Minesweeper.t) (s : Sentence) :
  holds g s →
  0 ≤ Sentence.count s ≤ Z.of_nat (size (Sentence.cells s)) ∧
  (∀ c, c ∈ Sentence.known_safes s → Minesweeper.is_mine g c = false) ∧
  (∀ c, c ∈ Sentence.known_mines s → Minesweeper.is_mine g c = true) ∧
  (∀ c, Minesweeper.is_mine g c = false → holds g (Sentence.mark_safe s c)) ∧
  (∀ c, Minesweeper.is_mine g c = true → holds g (Sentence.mark_mine s c)) ∧
  (∀ c, c ∈ Sentence.cells s → Minesweeper.is_mine g c = true →
        ¬ holds g (Sentence.mark_safe s c)) ∧
  (∀ c, c ∈ Sentence.cells s → Minesweeper.is_mine g c = false →
        ¬ holds g (Sentence.mark_mine s c)).
Proof.
  intros Hs. repeat split.
  - rewrite Hs. apply mine_count_le_size.
  - rewrite Hs. apply mine_count_le_size.
  - intros c. by apply known_safes_sound.
  - intros c. by apply known_mines_sound.
  - intros c Hc. by apply holds_mark_safe.
  - intros c Hc. by apply holds_mark_mine.
  - intros c Hin Hc. unfold holds, Sentence.mark_safe in *.
    rewrite bool_decide_eq_true_2 by done. simpl.
    rewrite mine_count_remove_mine by done. lia.
  - intros c Hin Hc. unfold holds, Sentence.mark_mine in *.
    rewrite bool_decide_eq_true_2 by done. simpl.
    rewrite mine_count_remove_safe by done. lia.
Qed.

Lemma sentence_truth_witness :
  holds board_2x3 example_A ∧
  holds board_2x3 (Sentence.mark_mine example_A (0, 1)) ∧
  ¬ holds board_2x3 (Sentence.mark_safe example_A (0, 1)).
Proof.
  assert (H : holds board_2x3 example_A) by (vm_compute; reflexivity).
  assert (Hin : (0, 1) ∈ Sentence.cells example_A).
  { apply (bool_decide_unpack _). vm_compute. exact I. }
  assert (Hm : Minesweeper.is_mine board_2x3 (0, 1) = true) by reflexivity.
  split; [exact H|]. split.
  - exact (proj1 (proj2 (proj2 (proj2 (proj2 (sentence_truth _ _ H)))))
             (0, 1) Hm).
  - exact (proj1 (proj2 (proj2 (proj2 (proj2 (proj2 (sentence_truth _ _ H))))))
             (0, 1) Hin Hm).
Defined.

(** * Further properties of the saturation loop *)

(** X4. The two marking loops of [update_knowledge] run over Python sets:
    in whatever order the cells of the two sets are visited, an iteration
    of the [while] loop ends in the same state. *)
Theorem update_pass_any_order (a : AI) (ls lm : list Cell) :
  ls ≡ₚ elements (scan (knowledge a)).1 →
  lm ≡ₚ elements (scan (knowledge a)).2 →
  (update_pass a).1
  = set_knowledge (fold_left mark_mine lm (fold_left mark_safe ls a))
      (filter (λ s, Sentence.cells s ≠ ∅)
         (knowledge (fold_left mark_mine lm (fold_left mark_safe ls a)))).
Proof.
  intros Hs Hm. rewrite update_pass_unfold; simpl.
  rewrite (fold_mark_safe_any_order _ _ a Hs).
  by rewrite (fold_mark_mine_any_order _ _ _ Hm).
Qed.

Lemma update_pass_any_order_witness :
  [(0, 0); (0, 1)] ≡ₚ elements (scan (knowledge two_safe_cells)).1 ∧
  [] ≡ₚ elements (scan (knowledge two_safe_cells)).2 ∧
  (update_pass two_safe_cells).1
  = MinesweeperAI.mk 2 2 ∅ ∅ {[(0, 0); (0, 1)]} [].
Proof.
  assert (Es : elements (scan (knowledge two_safe_cells)).1 = [(0, 1); (0, 0)]).
  { vm_compute. reflexivity. }
  assert (Em : elements (scan (knowledge two_safe_cells)).2 = []).
  { vm_compute. reflexivity. }
  assert (Hs : [(0, 0); (0, 1)] ≡ₚ elements (scan (knowledge two_safe_cells)).1).
  { rewrite Es. apply perm_swap. }
  assert (Hm : [] ≡ₚ elements (scan (knowledge two_safe_cells)).2).
  { rewrite Em. apply perm_nil. }
  split; [exact Hs|]. split; [exact Hm|].
  rewrite (update_pass_any_order two_safe_cells _ _ Hs Hm).
  vm_compute. reflexivity.
Defined.

Lemma saturated_unchanged (a : AI) :
  saturated (knowledge a) → update_knowledge a = a.
Proof.
  intros Hsat.
  assert (HS : (scan (knowledge a)).1 = ∅).
  { apply leibniz_equiv, elem_of_equiv_empty. intros c Hc.
    apply scan_safes in Hc as (s & Hs & Hc).
    destruct (Hsat s Hs) as (_ & H0 & _). unfold Sentence.known_safes in Hc.
    rewrite bool_decide_eq_false_2 in Hc by done. by apply elem_of_empty in Hc. }
  assert (HM : (scan (knowledge a)).2 = ∅).
  { apply leibniz_equiv, elem_of_equiv_empty. intros c Hc.
    apply scan_mines in Hc as (s & Hs & Hc).
    destruct (Hsat s Hs) as (_ & _ & H1). unfold Sentence.known_mines in Hc.
    rewrite (bool_decide_eq_false_2 _ H1) in Hc. by apply elem_of_empty in Hc. }
  assert (Hf : filter (λ s, Sentence.cells s ≠ ∅) (knowledge a) = knowledge a).
  { clear HS HM. induction (knowledge a) as [|s kb IH]; [done|].
    rewrite filter_cons, decide_True.
    - f_equal. apply IH. intros s' Hs'. apply Hsat. by right.
    - apply (Hsat s). left. }
  rewrite update_knowledge_unfold, update_pass_unfold. cbn [fst snd].
  rewrite HS, HM, elements_empty. cbn [fold_left].
  rewrite !bool_decide_eq_false_2 by (by intros []). cbn [orb].
  rewrite Hf. by destruct a.
Qed.

(** X5. When [update_knowledge] returns, from any state, no sentence is
    left with an empty cell set, with count 0 or with as many mines as
    cells; running it again changes nothing, and in general it changes
    nothing exactly when the knowledge base has no such sentence. *)
Theorem update_knowledge_saturates (a : AI) :
  saturated (knowledge (update_knowledge a)) ∧
  update_knowledge (update_knowledge a) = update_knowledge a ∧
  (update_knowledge a = a ↔ saturated (knowledge a)).
Proof.
  pose proof (update_loop_fixpoint _ _ _ (update_loop_result a)) as Hfix.
  assert (Hsat : saturated (knowledge (update_knowledge a)));
    [|split; [exact Hsat|split;
       [|split; [by intros <-|apply saturated_unchanged]]]].
  - set (b := update_knowledge a) in *.
    rewrite update_pass_unfold in Hfix. simpl in Hfix.
    injection Hfix as Hb Hu.
    apply orb_false_elim in Hu as [HS HM].
    apply bool_decide_eq_false_1, dec_stable in HS.
    apply bool_decide_eq_false_1, dec_stable in HM.
    rewrite HS, HM, elements_empty in Hb. simpl in Hb.
    apply (f_equal knowledge) in Hb. simpl in Hb.
    intros s Hs.
    assert (Hne : Sentence.cells s ≠ ∅).
    { rewrite <- Hb in Hs. by apply list_elem_of_filter in Hs as [? _]. }
    assert (H0 : Sentence.known_safes s = ∅).
    { apply leibniz_equiv, elem_of_equiv_empty. intros c Hc.
      assert (c ∈ (scan (knowledge b)).1) by (apply scan_safes; eauto).
      set_solver. }
    assert (H1 : Sentence.known_mines s = ∅).
    { apply leibniz_equiv, elem_of_equiv_empty. intros c Hc.
      assert (c ∈ (scan (knowledge b)).2) by (apply scan_mines; eauto).
      set_solver. }
    assert (Hcount : Sentence.count s ≠ 0).
    { intros E. unfold Sentence.known_safes in H0.
      by rewrite bool_decide_eq_true_2 in H0 by done. }
    split; [done|]. split; [done|].
    intros E. unfold Sentence.known_mines in H1.
    rewrite (bool_decide_eq_true_2 _ E) in H1.
    by rewrite (bool_decide_eq_false_2 _ Hcount) in H1.
  - rewrite (update_knowledge_unfold (update_knowledge a)). by rewrite Hfix.
Qed.

(** * Further properties of the engine against a board *)

(** X6. On a board [g], after any sequence of [add_knowledge] calls that
    respects the caller's contract, made on a new engine for that board:
    no cell of [safes] is a mine, every cell of [mines] is a mine, and every
    sentence of the knowledge base is true of the board, so its count lies
    between 0 and its number of cells. *)
Theorem engine_sound (g : Minesweeper.t) (obs : list (Cell * Z)) :
  Minesweeper.wf g →
  Forall (contract g) obs →
  (∀ c, c ∈ safes (run (init (Minesweeper.height g) (Minesweeper.width g)) obs) →
        Minesweeper.is_mine g c = false) ∧
  (∀ c, c ∈ mines (run (init (Minesweeper.height g) (Minesweeper.width g)) obs) →
        Minesweeper.is_mine g c = true) ∧
  (∀ s, s ∈ knowledge (run (init (Minesweeper.height g) (Minesweeper.width g)) obs) →
        Sentence.count s = mine_count g (Sentence.cells s) ∧
        0 ≤ Sentence.count s ≤ Z.of_nat (size (Sentence.cells s))).
Proof.
  intros _ Hobs. destruct (sound_run g obs Hobs) as (Hs & Hm & Hk).
  split; [exact Hs|]. split; [exact Hm|].
  intros s Hin. rewrite Forall_forall in Hk. specialize (Hk s Hin).
  split; [exact Hk|]. rewrite Hk. apply mine_count_le_size.
Qed.

Lemma board_2x3_wf : Minesweeper.wf board_2x3.
Proof.
  unfold Minesweeper.wf; simpl. repeat split; try lia. repeat constructor.
Defined.

Lemma calls_2x3_contract : Forall (contract board_2x3) calls_2x3.
Proof. repeat constructor; simpl; try lia; vm_compute; reflexivity. Defined.

Lemma engine_sound_witness :
  Minesweeper.wf board_2x3 ∧ Forall (contract board_2x3) calls_2x3 ∧
  (0, 1) ∈ mines (run (init 2 3) calls_2x3) ∧
  Minesweeper.is_mine board_2x3 (0, 1) = true.
Proof.
  assert (Hin : (0, 1) ∈ mines (run (init 2 3) calls_2x3)).
  { apply (bool_decide_unpack _). vm_compute. exact I. }
  split; [exact board_2x3_wf|]. split; [exact calls_2x3_contract|].
  split; [exact Hin|].
  exact (proj1 (proj2 (engine_sound board_2x3 calls_2x3
                         board_2x3_wf calls_2x3_contract)) (0, 1) Hin).
Defined.

(** * Further properties of move selection *)

(** X7. [make_safe_move] returns a cell of [safes] that is not in
    [moves_made], and returns [None] exactly when every cell of [safes] is
    in [moves_made]. *)
Theorem make_safe_move_spec (ai : AI) :
  (∀ c, make_safe_move ai = Some c → c ∈ safes ai ∧ c ∉ moves_made ai) ∧
  (make_safe_move ai = None ↔ safes ai ⊆ moves_made ai).
Proof.
  unfold make_safe_move. split.
  - intros c Hc. apply head_Some in Hc as [l Hl].
    assert (Hin : c ∈ filter (λ move, move ∉ moves_made ai) (elements (safes ai))).
    { rewrite Hl. left. }
    apply list_elem_of_filter in Hin as [? Hin].
    by apply elem_of_elements in Hin.
  - rewrite head_None. split.
    + intros Hnil c Hc. destruct (decide (c ∈ moves_made ai)) as [|Hn]; [done|].
      assert (Hin : c ∈ filter (λ move, move ∉ moves_made ai)
                          (elements (safes ai))).
      { apply list_elem_of_filter. split; [done|]. by apply elem_of_elements. }
      rewrite Hnil in Hin. by apply elem_of_nil in Hin.
    + intros Hsub. apply elem_of_nil_inv. intros c Hin.
      apply list_elem_of_filter in Hin as [Hn Hin].
      apply elem_of_elements in Hin. by apply Hn, Hsub.
Qed.

Lemma make_safe_move_spec_witness :
  make_safe_move (run (init 2 3) calls_2x3) = Some (0, 2) ∧
  (0, 2) ∈ safes (run (init 2 3) calls_2x3) ∧
  ((0, 2) ∉ moves_made (run (init 2 3) calls_2x3)).
Proof.
  assert (E : make_safe_move (run (init 2 3) calls_2x3) = Some (0, 2)).
  { vm_compute. reflexivity. }
  split; [exact E|].
  exact (proj1 (make_safe_move_spec (run (init 2 3) calls_2x3)) (0, 2) E).
Defined.

(** X8. On a board [g], after any sequence of [add_knowledge] calls that
    respects the caller's contract, made on a new engine for that board, a
    cell returned by [make_safe_move] is not a mine and has not been played
    yet. *)
Theorem safe_move_is_not_a_mine (g : Minesweeper.t) (obs : list (Cell * Z))
    (c : Cell) :
  Minesweeper.wf g →
  Forall (contract g) obs →
  make_safe_move (run (init (Minesweeper.height g) (Minesweeper.width g)) obs)
  = Some c →
  Minesweeper.is_mine g c = false ∧
  c ∉ moves_made (run (init (Minesweeper.height g) (Minesweeper.width g)) obs).
Proof.
  intros _ Hobs Hc. destruct (sound_run g obs Hobs) as (Hs & _ & _).
  unfold make_safe_move in Hc. apply head_Some in Hc as [l Hl].
  assert (Hin : c ∈ filter
            (λ move, move ∉ moves_made
               (run (init (Minesweeper.height g) (Minesweeper.width g)) obs))
            (elements (safes
               (run (init (Minesweeper.height g) (Minesweeper.width g)) obs)))).
  { rewrite Hl. left. }
  apply list_elem_of_filter in Hin as [Hn Hin].
  apply elem_of_elements in Hin. split; [by apply Hs|done].
Qed.

Lemma safe_move_is_not_a_mine_witness :
  make_safe_move (run (init 2 3) calls_2x3) = Some (0, 2) ∧
  Minesweeper.is_mine board_2x3 (0, 2) = false.
Proof.
  assert (E : make_safe_move
                (run (init (Minesweeper.height board_2x3)
                        (Minesweeper.width board_2x3)) calls_2x3)
              = Some (0, 2)).
  { vm_compute. reflexivity. }
  split; [exact E|].
  exact (proj1 (safe_move_is_not_a_mine board_2x3 calls_2x3 (0, 2)
                  board_2x3_wf calls_2x3_contract E)).
Defined.

Lemma run_moves_made (ai : AI) (obs : list (Cell * Z)) :
  moves_made (run ai obs) = list_to_set (obs.*1) ∪ moves_made ai.
Proof.
  revert ai. induction obs as [|[c k] obs IH]; intros ai.
  - simpl. set_solver.
  - change (run ai ((c, k) :: obs)) with (run (add_knowledge ai c k) obs).
    rewrite IH.
    destruct (add_knowledge_sets ai c k) as (_ & _ & -> & _).
    rewrite fmap_cons. simpl. set_solver.
Qed.

(** * The cells around a cell *)

Lemma bounds_test_spec (h w : Z) (x : Cell) :
  (0 <=? x.1) && (x.1 <? h) && (0 <=? x.2) && (x.2 <? w) = true
  ↔ in_bounds h w x.
Proof.
  unfold in_bounds. rewrite !andb_true_iff, !Z.leb_le, !Z.ltb_lt. tauto.
Qed.

Lemma elem_of_cells_at (cell : Cell) (ds : list (Z * Z)) (x : Cell) :
  x ∈ cells_at cell ds
  ↔ ∃ d, d ∈ ds ∧ d ≠ (0, 0) ∧ x = (cell.1 + d.1, cell.2 + d.2).
Proof.
  unfold cells_at. rewrite elem_of_list_to_set, list_elem_of_fmap.
  setoid_rewrite list_elem_of_filter. naive_solver.
Qed.

Lemma cells_at_cons (cell : Cell) (d : Z * Z) (ds : list (Z * Z)) :
  cells_at cell (d :: ds)
  = if decide (d ≠ (0, 0))
    then {[(cell.1 + d.1, cell.2 + d.2)]} ∪ cells_at cell ds
    else cells_at cell ds.
Proof.
  unfold cells_at. rewrite filter_cons.
  destruct (decide (d ≠ (0, 0))); [|done].
  by rewrite fmap_cons, list_to_set_cons.
Qed.

Lemma cells_at_fresh (cell : Cell) (d : Z * Z) (ds : list (Z * Z)) :
  d ∉ ds → (cell.1 + d.1, cell.2 + d.2) ∉ cells_at cell ds.
Proof.
  intros Hd (d' & Hin & _ & E)%elem_of_cells_at.
  injection E as E1 E2.
  assert (d = d'); [|by subst].
  destruct d, d'; simpl in *. f_equal; lia.
Qed.

Lemma size_filter_add (Q : Cell → Prop) `{!∀ x, Decision (Q x)}
    (x : Cell) (X : gset Cell) :
  x ∉ X →
  size (filter Q ({[x]} ∪ X))
  = ((if decide (Q x) then 1 else 0) + size (filter Q X))%nat.
Proof.
  intros Hx. rewrite filter_union_L by apply _. rewrite size_union.
  - destruct (decide (Q x)).
    + rewrite filter_singleton_True_L by (done || apply _).
      by rewrite size_singleton.
    + rewrite filter_singleton_False_L by (done || apply _).
      by rewrite size_empty.
  - intros y [_ ->%elem_of_singleton]%elem_of_filter [_ ?]%elem_of_filter.
    done.
Qed.

(** A loop over offsets that adds 1 for every cell, other than the centre,
    that satisfies [Q] counts the cells around the centre that satisfy
    [Q]. *)
Lemma fold_count (Q : Cell → Prop) `{!∀ x, Decision (Q x)} (cell : Cell)
    (step : Z → Z * Z → Z) (ds : list (Z * Z)) :
  (∀ cnt d, step cnt d
            = cnt + (if decide (d ≠ (0, 0) ∧ Q (cell.1 + d.1, cell.2 + d.2))
                     then 1 else 0)) →
  NoDup ds →
  ∀ cnt, fold_left step ds cnt
         = cnt + Z.of_nat (size (filter Q (cells_at cell ds))).
Proof.
  intros Hstep. induction 1 as [|d ds Hd Hnd IH]; intros cnt.
  - simpl. unfold cells_at. simpl.
    rewrite filter_empty_L by apply _. rewrite size_empty. lia.
  - cbn [fold_left]. rewrite IH, Hstep, cells_at_cons.
    destruct (decide (d ≠ (0, 0))) as [Hne|He].
    + rewrite size_filter_add by by apply cells_at_fresh.
      destruct (decide (Q _)); [rewrite decide_True by done|
                                rewrite decide_False by tauto]; lia.
    + rewrite decide_False by tauto. lia.
Qed.

Lemma size_list_to_set_le (l : list Cell) :
  (size (list_to_set l : gset Cell) ≤ length l)%nat.
Proof.
  induction l as [|x l IH].
  - rewrite list_to_set_nil, size_empty. simpl. lia.
  - rewrite list_to_set_cons, size_union_alt, size_singleton. simpl.
    assert (size (list_to_set l ∖ {[x]} : gset Cell)
            ≤ size (list_to_set l : gset Cell))%nat
      by (apply subseteq_size; set_solver).
    lia.
Qed.

Lemma size_neighbors_le (Q : Cell → Prop) `{!∀ x, Decision (Q x)} (cell : Cell) :
  (size (filter Q (neighbors cell)) ≤ 8)%nat.
Proof.
  etrans; [apply subseteq_size; intros x [_ Hx]%elem_of_filter; exact Hx|].
  unfold neighbors, cells_at.
  etrans; [apply size_list_to_set_le|].
  rewrite length_fmap. done.
Qed.

(** * Further properties of the board *)

Lemma tally_step (g : Minesweeper.t) (r c cnt : Z) (d : Z * Z) :
  Minesweeper.tally g (r, c) cnt (r + d.1) (c + d.2)
  = cnt + (if decide (d ≠ (0, 0)
                      ∧ (in_bounds (Minesweeper.height g) (Minesweeper.width g)
                           (r + d.1, c + d.2)
                         ∧ Minesweeper.is_mine g (r + d.1, c + d.2) = true))
           then 1 else 0).
Proof.
  destruct d as [dr dc]. unfold Minesweeper.tally. simpl.
  case_bool_decide as Hc.
  - injection Hc as H1 H2.
    rewrite decide_False; [lia|]. intros [Hne _]. apply Hne. f_equal; lia.
  - destruct (_ && _ && _ && _) eqn:Hb.
    + apply (bounds_test_spec _ _ (r + dr, c + dc)) in Hb.
      destruct (Minesweeper.board_at g _ _) eqn:Hm.
      * rewrite decide_True; [lia|]. split; [|done].
        intros [= -> ->]. apply Hc. by rewrite !Z.add_0_r.
      * rewrite decide_False; [lia|]. intros (_ & _ & ?). congruence.
    + rewrite decide_False; [lia|]. intros (_ & Hin & _).
      apply (bounds_test_spec _ _ (r + dr, c + dc)) in Hin.
      simpl in Hin. congruence.
Qed.

Lemma nearby_mines_count (g : Minesweeper.t) (cell : Cell) :
  Minesweeper.nearby_mines g cell
  = Z.of_nat (size (filter
      (λ x, in_bounds (Minesweeper.height g) (Minesweeper.width g) x
            ∧ Minesweeper.is_mine g x = true)
      (neighbors cell))).
Proof.
  destruct cell as [r c]. rewrite nearby_mines_offsets.
  rewrite (fold_count
    (λ x, in_bounds (Minesweeper.height g) (Minesweeper.width g) x
          ∧ Minesweeper.is_mine g x = true) (r, c));
    [done| |apply NoDup_offsets].
  intros cnt d. apply tally_step.
Qed.

(** X10. [nearby_mines] is the number of cells, among the eight around the
    given cell, that lie on the grid and hold a mine; the cell itself is not
    counted, and the result lies between 0 and 8. *)
Theorem nearby_mines_spec (g : Minesweeper.t) (cell : Cell) :
  Minesweeper.nearby_mines g cell
  = Z.of_nat (size (filter
      (λ x, in_bounds (Minesweeper.height g) (Minesweeper.width g) x
            ∧ Minesweeper.is_mine g x = true)
      (neighbors cell))) ∧
  (cell ∉ neighbors cell) ∧
  0 ≤ Minesweeper.nearby_mines g cell ≤ 8.
Proof.
  destruct cell as [r c].
  assert (E : Minesweeper.nearby_mines g (r, c)
    = Z.of_nat (size (filter
      (λ x, in_bounds (Minesweeper.height g) (Minesweeper.width g) x
            ∧ Minesweeper.is_mine g x = true)
      (neighbors (r, c))))).
  { rewrite nearby_mines_offsets.
    rewrite (fold_count
      (λ x, in_bounds (Minesweeper.height g) (Minesweeper.width g) x
            ∧ Minesweeper.is_mine g x = true) (r, c));
      [done| |apply NoDup_offsets].
    intros cnt d. apply tally_step. }
  split; [exact E|]. split.
  - intros (d & _ & Hne & Hd)%elem_of_cells_at. simpl in Hd.
    injection Hd as H1 H2. apply Hne. destruct d; simpl in *. f_equal; lia.
  - rewrite E. split; [lia|].
    pose proof (size_neighbors_le
      (λ x, in_bounds (Minesweeper.height g) (Minesweeper.width g) x
            ∧ Minesweeper.is_mine g x = true) (r, c)). lia.
Qed.

(** * Further properties of [add_knowledge] *)

Lemma visit_cells (a : AI) (r c : Z) (nc : gset Cell) (kn : Z) (d : Z * Z)
    (x : Cell) :
  x ∈ (visit a r c (nc, kn) d.1 d.2).1
  ↔ x ∈ nc ∨ (d ≠ (0, 0) ∧ x = (r + d.1, c + d.2)
              ∧ in_bounds (height a) (width a) x
              ∧ (x ∉ mines a) ∧ (x ∉ safes a)).
Proof.
  destruct d as [dr dc]. unfold visit. simpl.
  destruct ((dr =? 0) && (dc =? 0)) eqn:E0.
  { apply andb_true_iff in E0 as [->%Z.eqb_eq ->%Z.eqb_eq]. simpl.
    split; [by left|]. intros [?|[? _]]; done. }
  assert (Hne : (dr, dc) ≠ (0, 0)).
  { intros [= -> ->]. done. }
  destruct (_ && _ && _ && _) eqn:Hb.
  - apply (bounds_test_spec _ _ (r + dr, c + dc)) in Hb.
    repeat case_bool_decide; simpl.
    + split; [by left|]. intros [?|(_ & -> & _ & ? & _)]; done.
    + rewrite elem_of_union, elem_of_singleton.
      split; [|naive_solver].
      intros [->|?]; [right|by left]. done.
    + split; [by left|]. intros [?|(_ & -> & _ & _ & ?)]; done.
  - simpl. split; [by left|]. intros [?|(_ & -> & Hin & _)]; [done|].
    apply bounds_test_spec in Hin. simpl in Hin. congruence.
Qed.

Lemma visit_count (a : AI) (r c : Z) (nc : gset Cell) (kn : Z) (d : Z * Z) :
  (visit a r c (nc, kn) d.1 d.2).2
  = kn + (if decide (d ≠ (0, 0)
                     ∧ (in_bounds (height a) (width a) (r + d.1, c + d.2)
                        ∧ (r + d.1, c + d.2) ∈ mines a))
          then 1 else 0).
Proof.
  destruct d as [dr dc]. unfold visit. cbn [fst snd].
  destruct ((dr =? 0) && (dc =? 0)) eqn:E0.
  { apply andb_true_iff in E0 as [->%Z.eqb_eq ->%Z.eqb_eq]. cbn [fst snd].
    rewrite decide_False; [lia|]. by intros [? _]. }
  assert (Hne : (dr, dc) ≠ (0, 0)).
  { intros [= -> ->]. done. }
  destruct (_ && _ && _ && _) eqn:Hb.
  - apply (bounds_test_spec _ _ (r + dr, c + dc)) in Hb.
    destruct (decide ((r + dr, c + dc) ∈ mines a)) as [Hm|Hm].
    + rewrite (bool_decide_eq_true_2 _ Hm). cbn [fst snd].
      rewrite decide_True by done. lia.
    + rewrite (bool_decide_eq_false_2 _ Hm).
      rewrite decide_False by tauto.
      destruct (bool_decide _); cbn [fst snd]; lia.
  - cbn [fst snd]. rewrite decide_False; [lia|]. intros (_ & Hin & _).
    apply bounds_test_spec in Hin. simpl in Hin. congruence.
Qed.

Lemma scan_offsets_cells (a : AI) (r c : Z) (ds : list (Z * Z))
    (acc : gset Cell * Z) (x : Cell) :
  x ∈ (fold_left (λ acc d, visit a r c acc d.1 d.2) ds acc).1
  ↔ x ∈ acc.1 ∨ (x ∈ cells_at (r, c) ds
                 ∧ in_bounds (height a) (width a) x
                 ∧ (x ∉ mines a) ∧ (x ∉ safes a)).
Proof.
  revert acc. induction ds as [|d ds IH]; intros [nc kn].
  - simpl. unfold cells_at. simpl. set_solver.
  - cbn [fold_left]. rewrite IH.
    destruct (visit a r c (nc, kn) d.1 d.2) as [nc' kn'] eqn:E.
    pose proof (visit_cells a r c nc kn d x) as Hv. rewrite E in Hv.
    simpl in *. rewrite Hv, !elem_of_cells_at.
    setoid_rewrite elem_of_cons. simpl. naive_solver.
Qed.

Lemma scan_offsets_count (a : AI) (r c : Z) (ds : list (Z * Z))
    (acc : gset Cell * Z) :
  (fold_left (λ acc d, visit a r c acc d.1 d.2) ds acc).2
  = fold_left (λ kn d,
      kn + (if decide (d ≠ (0, 0)
                       ∧ (in_bounds (height a) (width a) (r + d.1, c + d.2)
                          ∧ (r + d.1, c + d.2) ∈ mines a))
            then 1 else 0)) ds acc.2.
Proof.
  revert acc. induction ds as [|d ds IH]; intros [nc kn]; [done|].
  cbn [fold_left]. rewrite IH.
  destruct (visit a r c (nc, kn) d.1 d.2) as [nc' kn'] eqn:E.
  pose proof (visit_count a r c nc kn d) as Hv. rewrite E in Hv.
  simpl in *. by rewrite Hv.
Qed.

Lemma neighbor_scan_chars (a : AI) (cell : Cell) :
  (∀ x, x ∈ (neighbor_scan a cell).1 ↔
        x ∈ neighbors cell ∧ in_bounds (height a) (width a) x
        ∧ (x ∉ mines a) ∧ (x ∉ safes a)) ∧
  (neighbor_scan a cell).2
  = Z.of_nat (size (filter
      (λ x, in_bounds (height a) (width a) x ∧ x ∈ mines a)
      (neighbors cell))).
Proof.
  destruct cell as [r c]. rewrite neighbor_scan_offsets. split.
  - intros x. rewrite scan_offsets_cells. cbn [fst]. unfold neighbors.
    split; [|by right]. intros [H|H]; [|done]. by apply elem_of_empty in H.
  - rewrite scan_offsets_count.
    rewrite (fold_count
      (λ x, in_bounds (height a) (width a) x ∧ x ∈ mines a) (r, c));
      [done|done|apply NoDup_offsets].
Qed.

(** X11. The neighbour loop of [add_knowledge] collects in [new_cells]
    exactly the cells around the observed cell that lie on the grid and are
    neither in [mines] nor in [safes], and counts in [known_mines_count]
    the cells around it that lie on the grid and are in [mines]; the
    observed cell itself is never collected. *)
Theorem neighbor_scan_spec (a : AI) (cell : Cell) :
  (∀ x, x ∈ (neighbor_scan a cell).1 ↔
        x ∈ neighbors cell ∧ in_bounds (height a) (width a) x
        ∧ (x ∉ mines a) ∧ (x ∉ safes a)) ∧
  (neighbor_scan a cell).2
  = Z.of_nat (size (filter
      (λ x, in_bounds (height a) (width a) x ∧ x ∈ mines a)
      (neighbors cell))) ∧
  (cell ∉ (neighbor_scan a cell).1) ∧
  0 ≤ (neighbor_scan a cell).2 ≤ 8.
Proof.
  destruct (neighbor_scan_chars a cell) as [Hcells Hcount].
  split; [exact Hcells|]. split; [exact Hcount|]. split.
  - rewrite Hcells. intros [(d & _ & Hne & Hd)%elem_of_cells_at _].
    destruct cell, d; simpl in *. injection Hd as H1 H2.
    apply Hne. f_equal; lia.
  - rewrite Hcount. split; [lia|].
    pose proof (size_neighbors_le
      (λ x, in_bounds (height a) (width a) x ∧ x ∈ mines a) cell). lia.
Qed.

Lemma fold_mark_mine_marks (l : list Cell) (a : AI) (x : Cell) :
  x ∈ l → x ∈ mines (fold_left mark_mine l a).
Proof.
  revert a. induction l as [|y l IH]; intros a Hx; [by apply elem_of_nil in Hx|].
  simpl. apply elem_of_cons in Hx as [->|Hx]; [|by apply IH].
  destruct (fold_mark_mine_extends l (mark_mine a y)) as (_&_&_&Hm&_).
  apply Hm. simpl. set_solver.
Qed.

Lemma update_knowledge_marks_mines (a : AI) (x : Cell) :
  x ∈ (scan (knowledge a)).2 → x ∈ mines (update_knowledge a).
Proof.
  intros Hx. pose proof (update_loop_result a) as Hloop. simpl in Hloop.
  assert (Hp : x ∈ mines (update_pass a).1).
  { rewrite update_pass_unfold; simpl.
    apply fold_mark_mine_marks. by apply elem_of_elements. }
  destruct (update_pass a) as [a' [|]]; simpl in Hp.
  - apply update_loop_extends in Hloop as (_&_&_&Hm&_). by apply Hm.
  - by injection Hloop as <-.
Qed.

(** The state of [add_knowledge] when its neighbour loop starts. *)
Lemma observe_unfold (a : AI) (c : Cell) (k : Z) :
  observe a c k
  = let a1 := mark_safe (set_moves_made a ({[c]} ∪ moves_made a)) c in
    if bool_decide ((neighbor_scan a1 c).1 ≠ ∅)
    then set_knowledge a1
           (knowledge a1
            ++ [Sentence.mk (neighbor_scan a1 c).1
                  (k - (neighbor_scan a1 c).2)])
    else a1.
Proof. unfold observe. by destruct (neighbor_scan _ c). Qed.

(** X12. Two cases in which [add_knowledge] settles all the cells around
    the observed cell at once.  If the count is the number of cells around it,
    on the grid, that are already in [mines], every other cell around it on
    the grid is in [safes] when the call returns.  If the count exceeds that
    number by exactly the number of cells around it, on the grid, that are
    neither in [mines] nor in [safes] nor the cell itself, all these cells
    are in [mines] when the call returns. *)
Theorem add_knowledge_settles_neighbors (a : AI) (c : Cell) (k : Z) :
  let known := filter (λ x, in_bounds (height a) (width a) x ∧ x ∈ mines a)
                 (neighbors c) in
  let open := filter (λ x, in_bounds (height a) (width a) x
                           ∧ (x ∉ mines a) ∧ (x ∉ safes a))
                (neighbors c) in
  (k = Z.of_nat (size known) →
     ∀ x, x ∈ neighbors c → in_bounds (height a) (width a) x →
          x ∉ mines a → x ∈ safes (add_knowledge a c k)) ∧
  (k = Z.of_nat (size known) + Z.of_nat (size open) →
     ∀ x, x ∈ open → x ∈ mines (add_knowledge a c k)).
Proof.
  intros known open.
  set (a1 := mark_safe (set_moves_made a ({[c]} ∪ moves_made a)) c).
  destruct (neighbor_scan_chars a1 c) as [Hcells Hcount].
  assert (Hnc : (neighbor_scan a1 c).1 = open).
  { assert (Hc : c ∉ neighbors c).
    { intros (d & _ & Hne & Hd)%elem_of_cells_at.
      destruct c, d; simpl in *. injection Hd as H1 H2.
      apply Hne. f_equal; lia. }
    apply leibniz_equiv. intros x. rewrite Hcells. unfold open.
    rewrite elem_of_filter.
    change (height a1) with (height a). change (width a1) with (width a).
    change (mines a1) with (mines a).
    change (safes a1) with ({[c]} ∪ safes a).
    rewrite elem_of_union, elem_of_singleton.
    split.
    - intros (Hn & Hb & Hm & Hs). tauto.
    - intros ((Hb & Hm & Hs) & Hn).
      split; [done|]. split; [done|]. split; [done|].
      intros [Hx|Hx]; [by subst|done]. }
  assert (Hkn : (neighbor_scan a1 c).2 = Z.of_nat (size known)) by exact Hcount.
  destruct (infer_new_sentences_extends (update_knowledge (observe a c k)))
    as (_&_&_&Hmines&Hsafes).
  split.
  - intros Hk x Hx Hin Hnm.
    destruct (decide (x ∈ safes a)) as [Hs|Hs].
    { destruct (add_knowledge_sets a c k) as (_&_&_&_&Hsub). apply Hsub.
      set_solver. }
    assert (Hopen : x ∈ open).
    { unfold open. apply elem_of_filter. done. }
    unfold add_knowledge. apply Hsafes, update_knowledge_marks_safes.
    apply scan_safes.
    exists (Sentence.mk (neighbor_scan a1 c).1 (k - (neighbor_scan a1 c).2)).
    split.
    + rewrite observe_unfold. fold a1. cbv zeta.
      rewrite bool_decide_eq_true_2
        by (rewrite Hnc; intros He; rewrite He in Hopen;
            by apply elem_of_empty in Hopen).
      simpl. apply elem_of_app. right. left.
    + unfold Sentence.known_safes. simpl.
      rewrite bool_decide_eq_true_2 by lia. by rewrite Hnc.
  - intros Hk x Hopen.
    unfold add_knowledge. apply Hmines, update_knowledge_marks_mines.
    apply scan_mines.
    exists (Sentence.mk (neighbor_scan a1 c).1 (k - (neighbor_scan a1 c).2)).
    split.
    + rewrite observe_unfold. fold a1. cbv zeta.
      rewrite bool_decide_eq_true_2
        by (rewrite Hnc; intros He; rewrite He in Hopen;
            by apply elem_of_empty in Hopen).
      simpl. apply elem_of_app. right. left.
    + unfold Sentence.known_mines. simpl.
      assert (size open ≠ 0%nat).
      { apply size_non_empty_iff. intros He. by apply (He x) in Hopen. }
      rewrite Hnc, Hkn.
      rewrite bool_decide_eq_true_2 by lia.
      rewrite bool_decide_eq_false_2 by lia. done.
Qed.

Lemma add_knowledge_settles_neighbors_witness :
  0 = Z.of_nat (size (filter
        (λ x, in_bounds (height (init 2 2)) (width (init 2 2)) x
              ∧ x ∈ mines (init 2 2))
        (neighbors (0, 0)))) ∧
  (1, 1) ∈ safes (add_knowledge (init 2 2) (0, 0) 0) ∧
  (0, 1) ∈ mines (add_knowledge (init 1 2) (0, 0) 1).
Proof.
  assert (H0 : 0 = Z.of_nat (size (filter
        (λ x, in_bounds (height (init 2 2)) (width (init 2 2)) x
              ∧ x ∈ mines (init 2 2))
        (neighbors (0, 0))))) by (vm_compute; reflexivity).
  assert (Hn : (1, 1) ∈ neighbors (0, 0)).
  { apply (bool_decide_unpack _). vm_compute. exact I. }
  assert (Hb : in_bounds (height (init 2 2)) (width (init 2 2)) (1, 1)).
  { unfold in_bounds; simpl. lia. }
  assert (Hm : (1, 1) ∉ mines (init 2 2)).
  { apply (bool_decide_unpack _). vm_compute. exact I. }
  assert (H1 : 1 = Z.of_nat (size (filter
        (λ x, in_bounds (height (init 1 2)) (width (init 1 2)) x
              ∧ x ∈ mines (init 1 2))
        (neighbors (0, 0))))
      + Z.of_nat (size (filter
        (λ x, in_bounds (height (init 1 2)) (width (init 1 2)) x
              ∧ (x ∉ mines (init 1 2)) ∧ (x ∉ safes (init 1 2)))
        (neighbors (0, 0))))) by (vm_compute; reflexivity).
  assert (Ho : (0, 1) ∈ filter
        (λ x, in_bounds (height (init 1 2)) (width (init 1 2)) x
              ∧ (x ∉ mines (init 1 2)) ∧ (x ∉ safes (init 1 2)))
        (neighbors (0, 0))).
  { apply (bool_decide_unpack _). vm_compute. exact I. }
  split; [exact H0|]. split.
  - exact (proj1 (add_knowledge_settles_neighbors (init 2 2) (0, 0) 0)
             H0 (1, 1) Hn Hb Hm).
  - exact (proj2 (add_knowledge_settles_neighbors (init 1 2) (0, 0) 1)
             H1 (0, 1) Ho).
Defined.

(** * Further properties of the inference pass *)

Lemma infer_pair_origin (kb nk : list Sentence) (s1 s2 : Sentence) :
  s1 ∈ kb → s2 ∈ kb →
  (∀ s, s ∈ nk → ∃ t1 t2, t1 ∈ kb ∧ t2 ∈ kb ∧ t1 ≠ t2
                          ∧ Sentence.cells t1 ⊆ Sentence.cells t2
                          ∧ s = difference t1 t2) →
  ∀ s, s ∈ infer_pair nk s1 s2 →
       ∃ t1 t2, t1 ∈ kb ∧ t2 ∈ kb ∧ t1 ≠ t2
                ∧ Sentence.cells t1 ⊆ Sentence.cells t2
                ∧ s = difference t1 t2.
Proof.
  intros H1 H2 Hnk s. unfold infer_pair.
  case_bool_decide as Heq; [by apply Hnk|].
  case_bool_decide as Hsub; [|by apply Hnk].
  case_bool_decide as Hin; [by apply Hnk|].
  intros [Hs|Hs%list_elem_of_singleton]%elem_of_app; [by apply Hnk|].
  exists s1, s2. by repeat split.
Qed.

Lemma inferred_origin (kb : list Sentence) (s : Sentence) :
  s ∈ inferred kb →
  ∃ t1 t2, t1 ∈ kb ∧ t2 ∈ kb ∧ t1 ≠ t2
           ∧ Sentence.cells t1 ⊆ Sentence.cells t2
           ∧ s = difference t1 t2.
Proof.
  revert s. unfold inferred.
  apply (fold_left_invariant
    (λ nk, ∀ s, s ∈ nk → ∃ t1 t2, t1 ∈ kb ∧ t2 ∈ kb ∧ t1 ≠ t2
                                   ∧ Sentence.cells t1 ⊆ Sentence.cells t2
                                   ∧ s = difference t1 t2)).
  - intros s Hs. by apply elem_of_nil in Hs.
  - intros nk s1 Hs1 Hnk.
    apply (fold_left_invariant
      (λ nk, ∀ s, s ∈ nk → ∃ t1 t2, t1 ∈ kb ∧ t2 ∈ kb ∧ t1 ≠ t2
                                     ∧ Sentence.cells t1 ⊆ Sentence.cells t2
                                     ∧ s = difference t1 t2)); [done|].
    intros nk' s2 Hs2 Hnk'. by apply infer_pair_origin.
Qed.

(** X13. The batch that [infer_new_sentences] appends to the knowledge
    base holds exactly the differences [(B.cells - A.cells, B.count -
    A.count)] of the pairs of unequal sentences [A], [B] of the knowledge
    base with the cells of [A] among those of [B], each of them once; the
    sentences that were there stay, in their order, in front of it. *)
Theorem infer_new_sentences_spec (a : AI) :
  (∃ batch, knowledge (infer_new_sentences a) = knowledge a ++ batch ∧
            NoDup batch ∧
            ∀ s, s ∈ batch ↔
                 ∃ s1 s2, s1 ∈ knowledge a ∧ s2 ∈ knowledge a ∧ s1 ≠ s2
                          ∧ Sentence.cells s1 ⊆ Sentence.cells s2
                          ∧ s = difference s1 s2) ∧
  moves_made (infer_new_sentences a) = moves_made a ∧
  safes (infer_new_sentences a) = safes a ∧
  mines (infer_new_sentences a) = mines a.
Proof.
  split; [|done].
  exists (inferred (knowledge a)). split; [done|].
  split; [apply inferred_NoDup|].
  intros s. split; [apply inferred_origin|].
  intros (s1 & s2 & H1 & H2 & Hne & Hsub & ->).
  by apply inferred_complete.
Qed.

(** * Sentences and the two sets of known cells *)

Lemma kb_fresh_mark_safe (a : AI) (c : Cell) :
  kb_fresh a → kb_fresh (mark_safe a c).
Proof.
  intros Ha s x Hs Hx. simpl in Hs.
  apply list_elem_of_fmap in Hs as (s0 & -> & Hs0).
  rewrite sentence_mark_safe_cells in Hx.
  apply elem_of_difference in Hx as [Hx Hne].
  destruct (Ha s0 x Hs0 Hx) as [H1 H2]. simpl. split; [|done].
  rewrite elem_of_union. tauto.
Qed.

Lemma kb_fresh_mark_mine (a : AI) (c : Cell) :
  kb_fresh a → kb_fresh (mark_mine a c).
Proof.
  intros Ha s x Hs Hx. simpl in Hs.
  apply list_elem_of_fmap in Hs as (s0 & -> & Hs0).
  rewrite sentence_mark_mine_cells in Hx.
  apply elem_of_difference in Hx as [Hx Hne].
  destruct (Ha s0 x Hs0 Hx) as [H1 H2]. simpl. split; [done|].
  rewrite elem_of_union. tauto.
Qed.

Lemma kb_fresh_set_knowledge (a : AI) (kb : list Sentence) :
  kb_fresh a →
  (∀ s, s ∈ kb → ∃ s0, s0 ∈ knowledge a
                       ∧ Sentence.cells s ⊆ Sentence.cells s0) →
  kb_fresh (set_knowledge a kb).
Proof.
  intros Ha Hkb s x Hs Hx. simpl in *.
  destruct (Hkb s Hs) as (s0 & Hs0 & Hsub). apply (Ha s0 x Hs0), Hsub, Hx.
Qed.

Lemma kb_fresh_update_pass (a : AI) : kb_fresh a → kb_fresh (update_pass a).1.
Proof.
  intros Ha. rewrite update_pass_unfold; simpl.
  apply kb_fresh_set_knowledge.
  - apply (fold_left_invariant kb_fresh).
    + apply (fold_left_invariant kb_fresh); [done|].
      intros b c _. apply kb_fresh_mark_safe.
    + intros b c _. apply kb_fresh_mark_mine.
  - intros s [_ Hs]%list_elem_of_filter. by exists s.
Qed.

Lemma kb_fresh_update_knowledge (a : AI) :
  kb_fresh a → kb_fresh (update_knowledge a).
Proof.
  pose proof (update_loop_result a) as Hloop. revert Hloop.
  generalize (update_knowledge a) as b.
  generalize (S (total_cells (knowledge a))) as fuel.
  intros fuel. revert a. induction fuel as [|fuel IH]; intros a b; [done|].
  simpl. pose proof (kb_fresh_update_pass a) as Hp.
  destruct (update_pass a) as [a' [|]]; simpl in Hp.
  - intros Hl Ha. apply (IH a'); auto.
  - intros [= <-]. exact Hp.
Qed.

Lemma kb_fresh_infer_new_sentences (a : AI) :
  kb_fresh a → kb_fresh (infer_new_sentences a).
Proof.
  intros Ha. apply kb_fresh_set_knowledge; [done|].
  intros s [Hs|Hs]%elem_of_app; [by exists s|].
  apply inferred_origin in Hs as (s1 & s2 & _ & H2 & _ & _ & ->).
  exists s2. split; [done|]. simpl. set_solver.
Qed.

Lemma kb_fresh_observe (a : AI) (c : Cell) (k : Z) :
  kb_fresh a → kb_fresh (observe a c k).
Proof.
  intros Ha. rewrite observe_unfold. cbv zeta.
  set (a1 := mark_safe (set_moves_made a ({[c]} ∪ moves_made a)) c).
  assert (H1 : kb_fresh a1).
  { apply kb_fresh_mark_safe. intros s x Hs Hx. exact (Ha s x Hs Hx). }
  case_bool_decide; [|done].
  intros s x [Hs|Hs%list_elem_of_singleton]%elem_of_app Hx.
  - by apply (H1 s x).
  - subst s. simpl in Hx.
    apply (proj1 (neighbor_scan_chars a1 c)) in Hx as (_ & _ & Hm & Hs).
    done.
Qed.

Lemma kb_fresh_apply_op (a : AI) (o : op) : kb_fresh a → kb_fresh (apply_op a o).
Proof.
  intros Ha. destruct o as [c|c|c k| |]; unfold apply_op.
  - by apply kb_fresh_mark_mine.
  - by apply kb_fresh_mark_safe.
  - unfold add_knowledge.
    by apply kb_fresh_infer_new_sentences, kb_fresh_update_knowledge,
      kb_fresh_observe.
  - by apply kb_fresh_update_knowledge.
  - by apply kb_fresh_infer_new_sentences.
Qed.

(** X14. After any sequence of operations on a new engine ([mark_mine],
    [mark_safe], [add_knowledge], [update_knowledge],
    [infer_new_sentences]), no sentence of the knowledge base mentions a
    cell of [safes] or of [mines]: a cell that enters one of the two sets is
    gone from every sentence, and no later sentence brings it back. *)
Theorem known_cells_leave_the_sentences (h w : Z) (ops : list op) :
  ∀ (s : Sentence) (c : Cell),
    s ∈ knowledge (run_ops (init h w) ops) → c ∈ Sentence.cells s →
    (c ∉ safes (run_ops (init h w) ops)) ∧ (c ∉ mines (run_ops (init h w) ops)).
Proof.
  unfold run_ops.
  apply (fold_left_invariant kb_fresh).
  - intros s c Hs. by apply elem_of_nil in Hs.
  - intros a o _. apply kb_fresh_apply_op.
Qed.

Lemma known_cells_leave_the_sentences_witness :
  example_A ∈ knowledge (run_ops (init 2 2) [AddKnowledge (-1, 0) 1]) ∧
  (0, 1) ∈ Sentence.cells example_A ∧
  ((0, 1) ∉ safes (run_ops (init 2 2) [AddKnowledge (-1, 0) 1])).
Proof.
  assert (Hs : example_A ∈ knowledge (run_ops (init 2 2) [AddKnowledge (-1, 0) 1])).
  { apply (bool_decide_unpack _). vm_compute. exact I. }
  assert (Hc : (0, 1) ∈ Sentence.cells example_A).
  { apply (bool_decide_unpack _). vm_compute. exact I. }
  split; [exact Hs|]. split; [exact Hc|].
  exact (proj1 (known_cells_leave_the_sentences 2 2 [AddKnowledge (-1, 0) 1]
                  example_A (0, 1) Hs Hc)).
Defined.

(** * Where the known cells lie *)

Lemma sets_located_mark_safe (a : AI) (c : Cell) :
  in_bounds (height a) (width a) c →
  sets_located a → sets_located (mark_safe a c).
Proof.
  intros Hc [Hm Hs]. split; simpl; [done|].
  intros x [->%elem_of_singleton|Hx]%elem_of_union; [by left|by apply Hs].
Qed.

Lemma sets_located_mark_mine (a : AI) (c : Cell) :
  in_bounds (height a) (width a) c →
  sets_located a → sets_located (mark_mine a c).
Proof.
  intros Hc [Hm Hs]. split; simpl; [|done].
  intros x [->%elem_of_singleton|Hx]%elem_of_union; [done|by apply Hm].
Qed.

Lemma sets_located_fold (f : AI → Cell → AI) (l : list Cell) (a : AI) :
  (∀ b c, extends b (f b c)) →
  (∀ b c, in_bounds (height b) (width b) c →
          sets_located b → sets_located (f b c)) →
  (∀ c, c ∈ l → in_bounds (height a) (width a) c) →
  sets_located a →
  sets_located (fold_left f l a) ∧ extends a (fold_left f l a).
Proof.
  intros Hext Hf Hl Ha.
  apply (fold_left_invariant (λ b, sets_located b ∧ extends a b)).
  - split; [done|apply extends_refl].
  - intros b c Hc [Hb Hab]. split.
    + apply Hf; [|done]. destruct Hab as (-> & -> & _). by apply Hl.
    + eapply extends_trans; [exact Hab|apply Hext].
Qed.

Lemma sets_located_update_pass (a : AI) :
  kb_in_bounds a → sets_located a → sets_located (update_pass a).1.
Proof.
  intros Hkb Ha. rewrite update_pass_unfold; simpl.
  unfold kb_in_bounds, all_cells in Hkb. rewrite Forall_forall in Hkb.
  destruct (sets_located_fold mark_safe
              (elements (scan (knowledge a)).1) a) as [H1 E1]; try done.
  { apply mark_safe_extends. }
  { apply sets_located_mark_safe. }
  { intros c (s & Hs & Hc)%elem_of_elements%scan_safes.
    apply (Hkb s Hs). by apply known_safes_subseteq. }
  destruct (sets_located_fold mark_mine
              (elements (scan (knowledge a)).2)
              (fold_left mark_safe (elements (scan (knowledge a)).1) a))
    as [H2 E2]; try done.
  { apply mark_mine_extends. }
  { apply sets_located_mark_mine. }
  { destruct E1 as (-> & -> & _).
    intros c (s & Hs & Hc)%elem_of_elements%scan_mines.
    apply (Hkb s Hs). by apply known_mines_subseteq. }
Qed.

Lemma sets_located_update_knowledge (a : AI) :
  kb_in_bounds a → sets_located a → sets_located (update_knowledge a).
Proof.
  pose proof (update_loop_result a) as Hloop. revert Hloop.
  generalize (update_knowledge a) as b.
  generalize (S (total_cells (knowledge a))) as fuel.
  intros fuel. revert a. induction fuel as [|fuel IH]; intros a b; [done|].
  simpl. intros Hl Hkb Ha.
  pose proof (sets_located_update_pass a Hkb Ha) as Hp.
  pose proof (all_cells_update_pass (in_bounds (height a) (width a)) a Hkb)
    as Hk.
  pose proof (update_pass_extends a) as (Eh & Ew & _).
  destruct (update_pass a) as [a' [|]]; simpl in *.
  - apply (IH a'); [done| |done]. unfold kb_in_bounds. by rewrite Eh, Ew.
  - by injection Hl as <-.
Qed.

Lemma sets_located_add_knowledge (a : AI) (c : Cell) (k : Z) :
  kb_in_bounds a → sets_located a → sets_located (add_knowledge a c k).
Proof.
  intros Hkb [Hm Hs]. unfold add_knowledge.
  assert (Ho : sets_located (observe a c k)).
  { destruct (observe_sets a c k) as (Eh & Ew & Emm & Emi & Es).
    split; rewrite Eh, Ew.
    - rewrite Emi. exact Hm.
    - rewrite Es, Emm. intros x [Hx|Hx]%elem_of_union.
      + right. apply elem_of_union. by left.
      + destruct (Hs x Hx); [by left|right]. apply elem_of_union. by right. }
  pose proof (sets_located_update_knowledge _ (observe_in_bounds a c k Hkb) Ho)
    as Hu.
  exact Hu.
Qed.

Lemma run_located (h w : Z) (obs : list (Cell * Z)) :
  sets_located (run (init h w) obs) ∧ kb_in_bounds (run (init h w) obs).
Proof.
  unfold run.
  apply (fold_left_invariant (λ a, sets_located a ∧ kb_in_bounds a)).
  - split; [split; intros x Hx; by apply elem_of_empty in Hx|].
    by apply Forall_nil.
  - intros a [c k] _ [Ha Hkb]. split.
    + by apply sets_located_add_knowledge.
    + apply (apply_op_in_bounds a (AddKnowledge c k) Hkb).
Qed.

(** X15. After any sequence of [add_knowledge] calls on a new engine, with
    any cells and counts, every cell of [mines] lies on the grid, and every
    cell of [safes] lies on the grid or is one of the observed cells. *)
Theorem known_cells_on_the_grid (h w : Z) (obs : list (Cell * Z)) :
  (∀ x, x ∈ mines (run (init h w) obs) → 0 ≤ x.1 < h ∧ 0 ≤ x.2 < w) ∧
  (∀ x, x ∈ safes (run (init h w) obs) →
        (0 ≤ x.1 < h ∧ 0 ≤ x.2 < w) ∨ x ∈ obs.*1).
Proof.
  assert (H : sets_located (run (init h w) obs)
              ∧ kb_in_bounds (run (init h w) obs)).
  { unfold run.
    apply (fold_left_invariant (λ a, sets_located a ∧ kb_in_bounds a)).
    - split; [split; intros x Hx; by apply elem_of_empty in Hx|].
      by apply Forall_nil.
    - intros a [c k] _ [Ha Hkb]. split.
      + by apply sets_located_add_knowledge.
      + apply (apply_op_in_bounds a (AddKnowledge c k) Hkb). }
  destruct H as [[Hm Hs] _].
  destruct (run_grid (init h w) obs) as [Eh Ew]. simpl in Eh, Ew.
  rewrite Eh, Ew in Hm, Hs. split; [exact Hm|].
  intros x Hx. destruct (Hs x Hx) as [?|Hmm]; [by left|right].
  rewrite run_moves_made in Hmm.
  apply elem_of_union in Hmm as [Hmm|Hmm]; [|by apply elem_of_empty in Hmm].
  by apply elem_of_list_to_set in Hmm.
Qed.

(** X9. After a sequence of [add_knowledge] calls, [moves_made] holds the
    cells it held before and the observed cells of the calls, and nothing
    else; the grid of the engine is the one it was created with. *)
Theorem moves_made_are_the_observed_cells (ai : AI) (obs : list (Cell * Z)) :
  moves_made (run ai obs) = list_to_set (obs.*1) ∪ moves_made ai ∧
  height (run ai obs) = height ai ∧ width (run ai obs) = width ai.
Proof. split; [apply run_moves_made|apply run_grid]. Qed.

Lemma known_cells_on_the_grid_witness :
  (0, 1) ∈ mines (run (init 2 3) calls_2x3) ∧
  (0 ≤ (0, 1).1 < 2 ∧ 0 ≤ (0, 1).2 < 3) ∧
  (-1, 0) ∈ safes (run (init 2 2) [((-1, 0), 0)]) ∧
  ((0 ≤ (-1, 0).1 < 2 ∧ 0 ≤ (-1, 0).2 < 2)
   ∨ (-1, 0) ∈ [((-1, 0), 0)].*1).
Proof.
  assert (Hm : (0, 1) ∈ mines (run (init 2 3) calls_2x3)).
  { apply (bool_decide_unpack _). vm_compute. exact I. }
  assert (Hs : (-1, 0) ∈ safes (run (init 2 2) [((-1, 0), 0)])).
  { apply (bool_decide_unpack _). vm_compute. exact I. }
  split; [exact Hm|]. split.
  - exact (proj1 (known_cells_on_the_grid 2 3 calls_2x3) (0, 1) Hm).
  - split; [exact Hs|].
    exact (proj2 (known_cells_on_the_grid 2 2 [((-1, 0), 0)]) (-1, 0) Hs).
Defined.

(** * Every operation against a board *)

(** X16. From any state of the engine that is true of a board [g] (the
    cells of [safes] hold no mine, the cells of [mines] are mines, the
    sentences are true): [update_knowledge] and [infer_new_sentences] keep
    it true, [mark_safe] of a cell that is not a mine and [mark_mine] of a
    mine keep it true, [add_knowledge] called within its contract on an
    engine for that grid keeps it true, and marking a mine as safe, or a
    cell without a mine as a mine, makes it false. *)
Theorem operations_keep_the_engine_sound (g : Minesweeper.t) (a : AI) :
  sound g a →
  sound g (update_knowledge a) ∧
  sound g (infer_new_sentences a) ∧
  (∀ c, Minesweeper.is_mine g c = false → sound g (mark_safe a c)) ∧
  (∀ c, Minesweeper.is_mine g c = true → sound g (mark_mine a c)) ∧
  (∀ c k, height a = Minesweeper.height g → width a = Minesweeper.width g →
          contract g (c, k) → sound g (add_knowledge a c k)) ∧
  (∀ c, Minesweeper.is_mine g c = true → ¬ sound g (mark_safe a c)) ∧
  (∀ c, Minesweeper.is_mine g c = false → ¬ sound g (mark_mine a c)).
Proof.
  intros Ha.
  split; [by apply sound_update_knowledge|].
  split; [by apply sound_infer_new_sentences|].
  split; [intros c Hc; by apply sound_mark_safe|].
  split; [intros c Hc; by apply sound_mark_mine|].
  split; [intros c k Hh Hw Hc; by apply sound_add_knowledge|].
  split.
  - intros c Hc (Hs & _ & _).
    assert (Minesweeper.is_mine g c = false); [|congruence].
    apply Hs. simpl. apply elem_of_union. left. by apply elem_of_singleton.
  - intros c Hc (_ & Hm & _).
    assert (Minesweeper.is_mine g c = true); [|congruence].
    apply Hm. simpl. apply elem_of_union. left. by apply elem_of_singleton.
Qed.

Lemma init_sound (g : Minesweeper.t) (h w : Z) : sound g (init h w).
Proof.
  split; [|split].
  - intros c Hc. by apply elem_of_empty in Hc.
  - intros c Hc. by apply elem_of_empty in Hc.
  - apply Forall_nil_2.
Defined.

Lemma operations_keep_the_engine_sound_witness :
  sound board_2x3 (init 2 3) ∧
  contract board_2x3 ((1, 0), 1) ∧
  sound board_2x3 (add_knowledge (init 2 3) (1, 0) 1) ∧
  ¬ sound board_2x3 (mark_safe (init 2 3) (0, 1)).
Proof.
  assert (Hc : contract board_2x3 ((1, 0), 1)).
  { repeat split; simpl; try lia; vm_compute; reflexivity. }
  assert (Hm : Minesweeper.is_mine board_2x3 (0, 1) = true) by reflexivity.
  split; [exact (init_sound board_2x3 2 3)|]. split; [exact Hc|]. split.
  - exact (proj1 (proj2 (proj2 (proj2 (proj2
      (operations_keep_the_engine_sound board_2x3 (init 2 3)
         (init_sound board_2x3 2 3))))))
      (1, 0) 1 eq_refl eq_refl Hc).
  - exact (proj1 (proj2 (proj2 (proj2 (proj2 (proj2
      (operations_keep_the_engine_sound board_2x3 (init 2 3)
         (init_sound board_2x3 2 3)))))))
      (0, 1) Hm).
Defined.

(** * The list of choices of [make_random_move] *)

Lemma choices_row_NoDup (p : Cell → bool) (i : Z) (js : list Z)
    (acc : list Cell) :
  NoDup js → NoDup acc → (∀ j, j ∈ js → (i, j) ∉ acc) →
  NoDup (fold_left
           (λ choices j, if p (i, j) then choices ++ [(i, j)] else choices)
           js acc).
Proof.
  intros Hjs. revert acc.
  induction Hjs as [|j js Hj Hjs IH]; intros acc Hacc Hfresh; [done|].
  simpl. apply IH.
  - destruct (p (i, j)); [|done].
    apply NoDup_app. split; [done|]. split; [|apply NoDup_singleton].
    intros x Hx ->%list_elem_of_singleton. revert Hx. apply Hfresh. left.
  - intros j' Hj'. destruct (p (i, j)).
    + intros [Hin|Hin%list_elem_of_singleton]%elem_of_app.
      * revert Hin. apply Hfresh. by right.
      * injection Hin as ->. done.
    + apply Hfresh. by right.
Qed.

Lemma choices_grid_NoDup (p : Cell → bool) (rows js : list Z)
    (acc : list Cell) :
  NoDup rows → NoDup js → NoDup acc →
  (∀ i j, i ∈ rows → (i, j) ∉ acc) →
  NoDup (fold_left (λ choices i,
           fold_left (λ choices j,
                        if p (i, j) then choices ++ [(i, j)] else choices)
                     js choices)
           rows acc).
Proof.
  intros Hrows Hjs. revert acc.
  induction Hrows as [|i rows Hi Hrows IH]; intros acc Hacc Hfresh; [done|].
  simpl. apply IH.
  - apply choices_row_NoDup; [done|done|]. intros j _. apply Hfresh. left.
  - intros i' j Hi'. rewrite choices_row_spec. simpl.
    intros [Hin|(-> & _)]; [|done].
    revert Hin. apply Hfresh. by right.
Qed.

Lemma choices_NoDup (ai : AI) : NoDup (choices ai).
Proof.
  unfold choices.
  apply (choices_grid_NoDup
    (λ c, bool_decide (c ∉ moves_made ai) && bool_decide (c ∉ mines ai)));
    try apply NoDup_seqZ; [apply NoDup_nil_2|].
  intros i j _ Hin. by apply elem_of_nil in Hin.
Qed.

(** X17. The list from which [make_random_move] draws holds every cell of
    the grid outside [moves_made] and [mines] exactly once: each such cell
    is returned for one and only one of the [len(choices)] possible
    draws. *)
Theorem make_random_move_draws_each_candidate_once (ai : AI) :
  NoDup (choices ai) ∧
  ∀ c, candidate ai c →
       ∃ i, (i < length (choices ai))%nat ∧
            make_random_move ai i = Some c ∧
            ∀ j, (j < length (choices ai))%nat →
                 make_random_move ai j = Some c → j = i.
Proof.
  split; [apply choices_NoDup|].
  intros c Hc. apply choices_spec, list_elem_of_lookup_1 in Hc as [i Hi].
  pose proof (lookup_lt_Some _ _ _ Hi) as Hlt.
  assert (Hmove : ∀ j, (j < length (choices ai))%nat →
                       make_random_move ai j = choices ai !! j).
  { intros j Hj. unfold make_random_move.
    destruct (choices ai) as [|c0 l] eqn:E; [simpl in Hj; lia|].
    by rewrite Nat.mod_small. }
  exists i. split; [done|]. split; [by rewrite Hmove|].
  intros j Hj Hjc. rewrite Hmove in Hjc by done.
  eapply NoDup_lookup; [apply choices_NoDup|exact Hjc|exact Hi].
Qed.

Lemma make_random_move_draws_each_candidate_once_witness :
  candidate one_call_2x2 (1, 1) ∧
  ∃ i, (i < length (choices one_call_2x2))%nat ∧
       make_random_move one_call_2x2 i = Some (1, 1).
Proof.
  assert (Hc : candidate one_call_2x2 (1, 1)).
  { split.
    - unfold in_bounds. vm_compute. repeat split; discriminate.
    - apply (bool_decide_unpack _). vm_compute. exact I. }
  split; [exact Hc|].
  destruct (proj2 (make_random_move_draws_each_candidate_once
                     one_call_2x2) (1, 1) Hc)
    as (i & Hi & Hmove & _).
  exists i. split; [exact Hi|exact Hmove].
Defined.

(** * The game object *)

Lemma fold_append_replicate {A B : Type} (x : A) (l : list B) (acc : list A) :
  fold_left (λ row _, row ++ [x]) l acc = acc ++ replicate (length l) x.
Proof.
  revert acc. induction l as [|y l IH]; intros acc; simpl.
  - by rewrite app_nil_r.
  - rewrite IH, <- app_assoc. done.
Qed.

Lemma empty_board_replicate (h w : Z) :
  Game.empty_board h w = replicate (Z.to_nat h) (replicate (Z.to_nat w) false).
Proof.
  unfold Game.empty_board. rewrite !fold_append_replicate. simpl.
  unfold range. by rewrite !length_seqZ, !Z.sub_0_r.
Qed.

Lemma board_at_set_true (h w : Z) (board : list (list bool)) (i j i' j' : Z) :
  length board = Z.to_nat h →
  Forall (λ row, length row = Z.to_nat w) board →
  0 ≤ i < h → 0 ≤ j < w → 0 ≤ i' → 0 ≤ j' →
  Minesweeper.board_at (Minesweeper.mk h w (Game.set_true board i j)) i' j'
  = if decide (i' = i ∧ j' = j) then true
    else Minesweeper.board_at (Minesweeper.mk h w board) i' j'.
Proof.
  intros Hlen Hrows Hi Hj Hi' Hj'.
  unfold Minesweeper.board_at, Game.set_true. simpl.
  rewrite list_lookup_alter.
  destruct (decide (Z.to_nat i = Z.to_nat i')) as [Ei|Ei].
  - assert (i' = i) as -> by lia.
    destruct (board !! Z.to_nat i) as [row|] eqn:Hrow; simpl.
    + rewrite list_lookup_insert.
      assert (length row = Z.to_nat w).
      { rewrite Forall_forall in Hrows. eapply Hrows, list_elem_of_lookup_2, Hrow. }
      destruct (decide (Z.to_nat j = Z.to_nat j' ∧ _)) as [[Ej _]|Hn].
      * rewrite decide_True; [done|]. split; [done|lia].
      * rewrite decide_False; [done|]. intros [_ ->]. apply Hn. split; [done|lia].
    + apply lookup_ge_None in Hrow. lia.
  - rewrite decide_False; [done|]. intros [-> _]. done.
Qed.

Lemma board_matches_empty (h w : Z) :
  board_matches h w (Game.empty_board h w) ∅.
Proof.
  rewrite empty_board_replicate. split; [|split; [|split]].
  - apply length_replicate.
  - apply Forall_replicate, length_replicate.
  - intros c Hc. by apply elem_of_empty in Hc.
  - intros [i j] [Hi Hj]. simpl in *. unfold Minesweeper.board_at. simpl.
    rewrite lookup_replicate_2 by lia. rewrite lookup_replicate_2 by lia.
    simpl. split; [done|]. intros Hc. by apply elem_of_empty in Hc.
Qed.

Lemma board_matches_set_true (h w : Z) (board : list (list bool))
    (mines : gset Cell) (i j : Z) :
  0 ≤ i < h → 0 ≤ j < w →
  board_matches h w board mines →
  board_matches h w (Game.set_true board i j) ({[(i, j)]} ∪ mines).
Proof.
  intros Hi Hj (Hlen & Hrows & Hin & Hb). split; [|split; [|split]].
  - unfold Game.set_true. by rewrite length_alter.
  - unfold Game.set_true. apply Forall_alter; [done|].
    intros row _ Hrow. by rewrite length_insert.
  - intros c [->%elem_of_singleton|Hc]%elem_of_union; [done|by apply Hin].
  - intros [i' j'] [Hi' Hj']. simpl in *.
    rewrite (board_at_set_true h w) by (done || lia).
    rewrite elem_of_union, elem_of_singleton, <- (Hb (i', j')) by done.
    simpl. destruct (decide (i' = i ∧ j' = j)) as [[-> ->]|Hn].
    + split; auto.
    + split; [by right|]. intros [[= -> ->]|?]; [|done]. by destruct Hn.
Qed.

(** The loop keeps the board and the set in step, and when it returns the
    set has the number of mines asked for. *)
Lemma place_returns (h w target : Z) (draws : list (nat * nat))
    (board board' : list (list bool)) (mines mines' : gset Cell) :
  Game.place h w target draws board mines = Game.Returned (board', mines') →
  board_matches h w board mines →
  board_matches h w board' mines' ∧ Z.of_nat (size mines') = target
  ∧ mines ⊆ mines'.
Proof.
  revert board mines.
  induction draws as [|[d1 d2] draws IH]; intros board mines; simpl.
  - case_bool_decide; [|by repeat destruct (_ <=? _)].
    intros [= <- <-]. done.
  - case_bool_decide; [intros [= <- <-]; done|].
    destruct (h <=? 0) eqn:Eh; [done|].
    destruct (w <=? 0) eqn:Ew; [done|].
    apply Z.leb_gt in Eh, Ew.
    pose proof (Z.mod_pos_bound (Z.of_nat d1) h Eh).
    pose proof (Z.mod_pos_bound (Z.of_nat d2) w Ew).
    destruct (Minesweeper.board_at _ _ _).
    + apply IH.
    + intros Hp Hm.
      apply IH in Hp as (? & ? & ?); [|by apply board_matches_set_true].
      split; [done|]. split; [done|]. set_solver.
Qed.

Lemma init_returns (h w target : Z) (draws : list (nat * nat)) (G : Game.t) :
  Game.init h w target draws = Game.Returned G →
  Minesweeper.height (Game.grid G) = h ∧
  Minesweeper.width (Game.grid G) = w ∧
  board_matches h w (Minesweeper.board (Game.grid G)) (Game.mines G) ∧
  Z.of_nat (size (Game.mines G)) = target ∧
  Game.mines_found G = ∅.
Proof.
  unfold Game.init.
  destruct (Game.place _ _ _ _ _ _) as [[board placed]| |] eqn:E; try done.
  intros [= <-]. simpl.
  apply place_returns in E as (Hm & Hsz & _); [|apply board_matches_empty].
  done.
Qed.

Lemma init_is_mine (h w target : Z) (draws : list (nat * nat)) (G : Game.t) :
  Game.init h w target draws = Game.Returned G →
  (∀ c, c ∈ Game.mines G → in_bounds h w c) ∧
  (∀ c, in_bounds h w c →
        (Minesweeper.is_mine (Game.grid G) c = true ↔ c ∈ Game.mines G)).
Proof.
  intros (_ & _ & (_ & _ & Hin & Hb) & _)%init_returns.
  split; [exact Hin|].
  intros [i j] Hc. rewrite <- (Hb (i, j) Hc). done.
Qed.

(** X18. When [Minesweeper.__init__] returns, the board has [height] rows
    of [width] entries, [mines] holds exactly the number of mines asked for,
    all on the grid, [board[i][j]] is true exactly at the cells of [mines],
    and [mines_found] is empty, so the new game is won only when it has no
    mine. *)
Theorem game_init_spec (h w target : Z) (draws : list (nat * nat)) (G : Game.t) :
  Game.init h w target draws = Game.Returned G →
  Minesweeper.height (Game.grid G) = h ∧
  Minesweeper.width (Game.grid G) = w ∧
  length (Minesweeper.board (Game.grid G)) = Z.to_nat h ∧
  Forall (λ row, length row = Z.to_nat w) (Minesweeper.board (Game.grid G)) ∧
  Z.of_nat (size (Game.mines G)) = target ∧
  (∀ c, c ∈ Game.mines G → 0 ≤ c.1 < h ∧ 0 ≤ c.2 < w) ∧
  (∀ c, 0 ≤ c.1 < h ∧ 0 ≤ c.2 < w →
        (Game.is_mine G c = true ↔ c ∈ Game.mines G)) ∧
  Game.mines_found G = ∅ ∧
  (Game.won G = true ↔ target = 0).
Proof.
  intros HG.
  pose proof HG as (Hh & Hw & (Hlen & Hrows & _) & Hsz & Hf)%init_returns.
  pose proof HG as (Hin & Hb)%init_is_mine.
  do 8 (split; [done|]).
  unfold Game.won. rewrite bool_decide_eq_true, Hf, <- Hsz. split.
  - intros <-. by rewrite size_empty.
  - intros H0. symmetry. apply leibniz_equiv, size_empty_iff. lia.
Qed.

Lemma game_init_spec_witness :
  Game.init 2 2 2 draws_2x2 = Game.Returned game_2x2 ∧
  Z.of_nat (size (Game.mines game_2x2)) = 2 ∧
  Game.mines_found game_2x2 = ∅.
Proof.
  assert (E : Game.init 2 2 2 draws_2x2 = Game.Returned game_2x2).
  { vm_compute. reflexivity. }
  split; [exact E|]. split.
  - exact (proj1 (proj2 (proj2 (proj2 (proj2 (game_init_spec _ _ _ _ _ E)))))).
  - exact (proj1 (proj2 (proj2 (proj2 (proj2 (proj2 (proj2 (proj2
             (game_init_spec _ _ _ _ _ E))))))))).
Defined.

Lemma size_on_grid (h w : Z) (X : gset Cell) :
  (∀ c, c ∈ X → in_bounds h w c) →
  Z.of_nat (size X) ≤ Z.of_nat (Z.to_nat h * Z.to_nat w).
Proof.
  intros HX. apply inj_le.
  etrans; [apply (subseteq_size X
                    (list_to_set (cprod (range 0 h) (range 0 w))))|].
  - intros c Hc. apply elem_of_list_to_set, list_elem_of_cprod.
    rewrite !elem_of_range. apply HX in Hc. exact Hc.
  - etrans; [apply size_list_to_set_le|].
    rewrite list_cprod_list_prod, length_prod. unfold range.
    by rewrite !length_seqZ, !Z.sub_0_r.
Qed.

Lemma place_keeps_running (h w target : Z) (draws : list (nat * nat))
    (board : list (list bool)) (mines : gset Cell) :
  0 < h → 0 < w → target < 0 ∨ h * w < target →
  board_matches h w board mines →
  Game.place h w target draws board mines = Game.Running.
Proof.
  intros Hh Hw Ht. revert board mines.
  induction draws as [|[d1 d2] draws IH]; intros board mines Hm.
  - simpl. pose proof (size_on_grid h w mines (proj1 (proj2 (proj2 Hm)))).
    rewrite bool_decide_eq_false_2 by lia.
    destruct (h <=? 0) eqn:Eh; [apply Z.leb_le in Eh; lia|].
    destruct (w <=? 0) eqn:Ew; [apply Z.leb_le in Ew; lia|]. done.
  - simpl. pose proof (size_on_grid h w mines (proj1 (proj2 (proj2 Hm)))).
    rewrite bool_decide_eq_false_2 by lia.
    destruct (h <=? 0) eqn:Eh; [apply Z.leb_le in Eh; lia|].
    destruct (w <=? 0) eqn:Ew; [apply Z.leb_le in Ew; lia|].
    pose proof (Z.mod_pos_bound (Z.of_nat d1) h Hh).
    pose proof (Z.mod_pos_bound (Z.of_nat d2) w Hw).
    destruct (Minesweeper.board_at _ _ _); apply IH; [done|].
    by apply board_matches_set_true.
Qed.

(** X19. The edge cases of [Minesweeper.__init__].  With 0 mines it returns
    the empty board at once, whatever the grid.  With another number of
    mines and a height or a width that is not positive it raises
    [ValueError].  On a grid with positive height and width, a negative
    number of mines, or more mines than cells, keeps the loop running
    however many random numbers it draws. *)
Theorem game_init_edge_cases (h w target : Z) (draws : list (nat * nat)) :
  (target = 0 →
     Game.init h w target draws
     = Game.Returned
         (Game.mk (Minesweeper.mk h w
                     (replicate (Z.to_nat h) (replicate (Z.to_nat w) false)))
                  ∅ ∅)) ∧
  (target ≠ 0 → h ≤ 0 ∨ w ≤ 0 → Game.init h w target draws = Game.ValueError) ∧
  (0 < h → 0 < w → target < 0 ∨ h * w < target →
     Game.init h w target draws = Game.Running).
Proof.
  split; [|split].
  - intros ->. unfold Game.init. rewrite empty_board_replicate.
    by destruct draws as [|[d1 d2] draws].
  - intros Ht Hhw. unfold Game.init.
    assert (Game.place h w target draws (Game.empty_board h w) ∅
            = Game.ValueError) as ->; [|done].
    destruct draws as [|[d1 d2] draws]; simpl;
      rewrite bool_decide_eq_false_2
        by (intros E; apply Ht; rewrite <- E; reflexivity);
      destruct (h <=? 0) eqn:Eh; try done;
      destruct (w <=? 0) eqn:Ew; try done;
      apply Z.leb_gt in Eh, Ew; lia.
  - intros Hh Hw Ht. unfold Game.init.
    by rewrite place_keeps_running by (done || apply board_matches_empty).
Qed.

Lemma game_init_edge_cases_witness :
  Game.init 2 2 5 draws_2x2 = Game.Running ∧
  Game.init 0 2 1 draws_2x2 = Game.ValueError ∧
  Game.init (-1) 2 0 draws_2x2
  = Game.Returned (Game.mk (Minesweeper.mk (-1) 2 []) ∅ ∅).
Proof.
  split; [|split].
  - apply (proj2 (proj2 (game_init_edge_cases 2 2 5 draws_2x2))); lia.
  - apply (proj1 (proj2 (game_init_edge_cases 0 2 1 draws_2x2))); lia.
  - exact (proj1 (game_init_edge_cases (-1) 2 0 draws_2x2) eq_refl).
Defined.

(** X20. In a game built by [Minesweeper.__init__], [nearby_mines] of a
    cell is the number of cells of [mines] among the eight cells around it,
    for any cell, on the grid or not. *)
Theorem game_nearby_mines_counts_mines (h w target : Z)
    (draws : list (nat * nat)) (G : Game.t) (cell : Cell) :
  Game.init h w target draws = Game.Returned G →
  Game.nearby_mines G cell = Z.of_nat (size (neighbors cell ∩ Game.mines G)).
Proof.
  intros HG.
  pose proof HG as (Hh & Hw & _)%init_returns.
  pose proof HG as (Hin & Hb)%init_is_mine.
  unfold Game.nearby_mines. rewrite nearby_mines_count, Hh, Hw.
  do 2 f_equal. apply leibniz_equiv. intros x.
  rewrite elem_of_filter, elem_of_intersection. split.
  - intros [[Hx Hm] Hn]. split; [done|]. by apply Hb.
  - intros [Hn Hm]. split; [|done]. split; [by apply Hin|].
    apply Hb; [by apply Hin|done].
Qed.

Lemma game_nearby_mines_counts_mines_witness :
  Game.init 2 2 2 draws_2x2 = Game.Returned game_2x2 ∧
  Game.nearby_mines game_2x2 (0, 0) = 2.
Proof.
  assert (E : Game.init 2 2 2 draws_2x2 = Game.Returned game_2x2).
  { vm_compute. reflexivity. }
  split; [exact E|].
  rewrite (game_nearby_mines_counts_mines _ _ _ _ _ (0, 0) E).
  vm_compute. reflexivity.
Defined.

(** X21. A game built by [Minesweeper.__init__] and an engine for its grid,
    fed with calls for cells of the grid that are not mines together with
    the counts that [nearby_mines] gives for them: every cell that the
    engine holds in [mines] is a mine of the game, no cell that it holds in
    [safes] is one, and a cell returned by [make_safe_move] is not a
    mine. *)
Theorem engine_on_a_game (h w target : Z) (draws : list (nat * nat))
    (G : Game.t) (obs : list (Cell * Z)) :
  Game.init h w target draws = Game.Returned G →
  Forall (played G) obs →
  mines (run (init h w) obs) ⊆ Game.mines G ∧
  safes (run (init h w) obs) ## Game.mines G ∧
  (∀ c, make_safe_move (run (init h w) obs) = Some c → c ∉ Game.mines G).
Proof.
  intros HG Hobs.
  pose proof HG as (Hh & Hw & _)%init_returns.
  pose proof HG as (Hin & Hb)%init_is_mine.
  assert (Hc : Forall (contract (Game.grid G)) obs).
  { eapply Forall_impl; [exact Hobs|].
    intros [c k] (Hc & Hn & Hk). simpl in *.
    split; [done|]. split; [|done]. simpl.
    rewrite Hh, Hw in Hc.
    destruct (Minesweeper.is_mine (Game.grid G) c) eqn:E; [|done].
    destruct Hn. by apply Hb. }
  pose proof (sound_run (Game.grid G) obs Hc) as (Hs & Hm & _).
  rewrite Hh, Hw in Hs, Hm.
  destruct (run_located h w obs) as [[Hlm _] _].
  destruct (run_grid (init h w) obs) as [Eh Ew]. simpl in Eh, Ew.
  rewrite Eh, Ew in Hlm.
  assert (Hsafe : ∀ c, c ∈ safes (run (init h w) obs) → c ∉ Game.mines G).
  { intros c Hcs Hcm. apply Hs in Hcs.
    apply Hb in Hcm; [|by apply Hin]. congruence. }
  split; [|split].
  - intros c Hcm. apply Hb; [by apply Hlm|]. by apply Hm.
  - intros c Hcs Hcm. by apply (Hsafe c).
  - intros c Hmove. apply Hsafe.
    unfold make_safe_move in Hmove. apply head_Some in Hmove as [l Hl].
    assert (Hcin : c ∈ filter (λ move, move ∉ moves_made (run (init h w) obs))
                     (elements (safes (run (init h w) obs)))).
    { rewrite Hl. left. }
    apply list_elem_of_filter in Hcin as [_ Hcin].
    by apply elem_of_elements in Hcin.
Qed.

Lemma engine_on_a_game_witness :
  Game.init 2 2 2 draws_2x2 = Game.Returned game_2x2 ∧
  Forall (played game_2x2) [((0, 0), 2)] ∧
  mines (run (init 2 2) [((0, 0), 2)]) ⊆ Game.mines game_2x2.
Proof.
  assert (E : Game.init 2 2 2 draws_2x2 = Game.Returned game_2x2).
  { vm_compute. reflexivity. }
  assert (Hp : Forall (played game_2x2) [((0, 0), 2)]).
  { constructor; [|constructor]. split; [|split].
    - unfold in_bounds; simpl. lia.
    - apply (bool_decide_unpack _). vm_compute. exact I.
    - vm_compute. reflexivity. }
  split; [exact E|]. split; [exact Hp|].
  exact (proj1 (engine_on_a_game 2 2 2 draws_2x2 game_2x2 _ E Hp)).
Defined.

(** * Printing the board *)

Lemma str_mul_dashes (w : Z) :
  Printing.str_mul ["-"; "-"]%char w ++ ["-"%char]
  = replicate (2 * Z.to_nat w + 1) "-"%char.
Proof.
  unfold Printing.str_mul. induction (Z.to_nat w) as [|n IH]; [done|].
  replace (2 * S n + 1)%nat with (S (S (2 * n + 1))) by lia.
  simpl in *. by rewrite IH.
Qed.

Lemma print_cells (g : Minesweeper.t) (i : Z) (js : list Z) (out : list ascii) :
  fold_left (λ out j,
      if Minesweeper.board_at g i j
      then Printing.py_print_end out ["|"; "X"]%char
      else Printing.py_print_end out ["|"; " "]%char) js out
  = out ++ mjoin ((λ j, ["|"%char; if Minesweeper.board_at g i j
                                   then "X"%char else " "%char]) <$> js).
Proof.
  revert out. induction js as [|j js IH]; intros out; simpl.
  - by rewrite app_nil_r.
  - rewrite IH. unfold Printing.py_print_end.
    destruct (Minesweeper.board_at g i j); by rewrite <- app_assoc.
Qed.

Lemma unlines_cons (l : list ascii) (ls : list (list ascii)) :
  unlines (l :: ls) = l ++ [Printing.newline] ++ unlines ls.
Proof. unfold unlines. rewrite fmap_cons. simpl. by rewrite <- app_assoc. Qed.

Lemma unlines_app (ls1 ls2 : list (list ascii)) :
  unlines (ls1 ++ ls2) = unlines ls1 ++ unlines ls2.
Proof.
  induction ls1 as [|l ls1 IH]; [done|].
  rewrite <- app_comm_cons, !unlines_cons, IH. by rewrite <- !app_assoc.
Qed.

Lemma print_rows (g : Minesweeper.t) (rows : list Z) (out : list ascii) :
  fold_left (λ out i,
      let out :=
        Printing.py_print out
          (Printing.str_mul ["-"; "-"]%char (Minesweeper.width g) ++ ["-"%char]) in
      let out :=
        fold_left (λ out j,
          if Minesweeper.board_at g i j
          then Printing.py_print_end out ["|"; "X"]%char
          else Printing.py_print_end out ["|"; " "]%char)
          (range 0 (Minesweeper.width g)) out in
      Printing.py_print out ["|"%char]) rows out
  = out ++ unlines (mjoin ((λ i, [separator g; row_text g i]) <$> rows)).
Proof.
  revert out. induction rows as [|i rows IH]; intros out.
  - simpl. by rewrite app_nil_r.
  - cbn [fold_left]. rewrite IH, print_cells, str_mul_dashes.
    assert (E : mjoin ((λ i, [separator g; row_text g i]) <$> i :: rows)
                = separator g :: row_text g i
                  :: mjoin ((λ i, [separator g; row_text g i]) <$> rows))
      by done.
    rewrite E, !unlines_cons.
    unfold Printing.py_print, row_text, separator.
    by rewrite <- !app_assoc.
Qed.

Lemma lookup_pairs {A B : Type} (a b : A → B) (xs : list A) (k : nat) :
  mjoin ((λ x, [a x; b x]) <$> xs) !! (2 * k)%nat = a <$> xs !! k ∧
  mjoin ((λ x, [a x; b x]) <$> xs) !! (2 * k + 1)%nat = b <$> xs !! k.
Proof.
  revert k. induction xs as [|x xs IH]; intros k; [done|].
  destruct k as [|k]; [done|].
  replace (2 * S k)%nat with (S (S (2 * k))) by lia.
  replace (S (S (2 * k)) + 1)%nat with (S (S (2 * k + 1))) by lia.
  simpl. apply IH.
Qed.

Lemma length_pairs {A B : Type} (a b : A → B) (xs : list A) :
  length (mjoin ((λ x, [a x; b x]) <$> xs)) = (2 * length xs)%nat.
Proof.
  induction xs as [|x xs IH]; [done|].
  change (S (S (length (mjoin ((λ x, [a x; b x]) <$> xs))))
          = (2 * S (length xs))%nat).
  rewrite IH. lia.
Qed.

Lemma length_range (n : Z) : length (range 0 n) = Z.to_nat n.
Proof. unfold range. by rewrite length_seqZ, Z.sub_0_r. Qed.

Lemma lookup_range (n : Z) (k : nat) :
  (k < Z.to_nat n)%nat → range 0 n !! k = Some (Z.of_nat k).
Proof.
  intros Hk. unfold range. rewrite lookup_seqZ_lt by lia. by f_equal.
Qed.

(** The cells of a row of the picture and the lines of the picture, two
    by two. *)
Lemma row_cells (g : Minesweeper.t) (i : Z) (k : nat) :
  length (mjoin ((λ j, ["|"%char; if Minesweeper.board_at g i j
                                  then "X"%char else " "%char])
                   <$> range 0 (Minesweeper.width g)))
  = (2 * Z.to_nat (Minesweeper.width g))%nat ∧
  ((k < Z.to_nat (Minesweeper.width g))%nat →
   mjoin ((λ j, ["|"%char; if Minesweeper.board_at g i j
                           then "X"%char else " "%char])
            <$> range 0 (Minesweeper.width g)) !! (2 * k)%nat
   = Some "|"%char ∧
   mjoin ((λ j, ["|"%char; if Minesweeper.board_at g i j
                           then "X"%char else " "%char])
            <$> range 0 (Minesweeper.width g)) !! (2 * k + 1)%nat
   = Some (if Minesweeper.board_at g i (Z.of_nat k)
           then "X"%char else " "%char)).
Proof.
  pose proof (length_pairs (λ _ : Z, "|"%char)
    (λ j, if Minesweeper.board_at g i j then "X"%char else " "%char)
    (range 0 (Minesweeper.width g))) as Hlen.
  pose proof (lookup_pairs (λ _ : Z, "|"%char)
    (λ j, if Minesweeper.board_at g i j then "X"%char else " "%char)
    (range 0 (Minesweeper.width g)) k) as [H1 H2].
  cbv beta in *. rewrite length_range in Hlen. split; [exact Hlen|].
  intros Hk. rewrite lookup_range in H1, H2 by done. done.
Qed.

Lemma picture_rows (g : Minesweeper.t) (k : nat) :
  length (mjoin ((λ i, [separator g; row_text g i])
                   <$> range 0 (Minesweeper.height g)))
  = (2 * Z.to_nat (Minesweeper.height g))%nat ∧
  ((k < Z.to_nat (Minesweeper.height g))%nat →
   mjoin ((λ i, [separator g; row_text g i])
            <$> range 0 (Minesweeper.height g)) !! (2 * k)%nat
   = Some (separator g) ∧
   mjoin ((λ i, [separator g; row_text g i])
            <$> range 0 (Minesweeper.height g)) !! (2 * k + 1)%nat
   = Some (row_text g (Z.of_nat k))).
Proof.
  pose proof (length_pairs (λ _ : Z, separator g) (row_text g)
    (range 0 (Minesweeper.height g))) as Hlen.
  pose proof (lookup_pairs (λ _ : Z, separator g) (row_text g)
    (range 0 (Minesweeper.height g)) k) as [H1 H2].
  cbv beta in *. rewrite length_range in Hlen. split; [exact Hlen|].
  intros Hk. rewrite lookup_range in H1, H2 by done. done.
Qed.

Lemma length_row_text (g : Minesweeper.t) (i : Z) :
  length (row_text g i) = (2 * Z.to_nat (Minesweeper.width g) + 1)%nat.
Proof.
  unfold row_text. rewrite length_app, (proj1 (row_cells g i 0)). simpl. lia.
Qed.

Lemma row_text_no_newline (g : Minesweeper.t) (i : Z) :
  Printing.newline ∉ row_text g i.
Proof.
  unfold row_text. rewrite elem_of_app, list_elem_of_singleton.
  intros [Hin|Hin]; [|discriminate].
  apply list_elem_of_lookup_1 in Hin as [k Hk].
  induction (range 0 (Minesweeper.width g)) as [|j js IH] in k, Hk |- *;
    [done|].
  destruct k as [|[|k]]; simpl in Hk.
  - discriminate.
  - injection Hk as Hk. by destruct (Minesweeper.board_at g i j).
  - by eapply IH.
Qed.

Lemma picture_lines (g : Minesweeper.t) (l : list ascii) :
  l ∈ picture g →
  length l = (2 * Z.to_nat (Minesweeper.width g) + 1)%nat
  ∧ Printing.newline ∉ l.
Proof.
  assert (Hsep : length (separator g)
                 = (2 * Z.to_nat (Minesweeper.width g) + 1)%nat
                 ∧ Printing.newline ∉ separator g).
  { unfold separator. split; [apply length_replicate|].
    intros [? _]%elem_of_replicate. discriminate. }
  unfold picture. rewrite elem_of_app, list_elem_of_singleton.
  intros [Hin| ->]; [|done].
  induction (range 0 (Minesweeper.height g)) as [|i rows IH]; simpl in Hin.
  - by apply elem_of_nil in Hin.
  - apply elem_of_cons in Hin as [->|Hin]; [done|].
    apply elem_of_cons in Hin as [->|Hin]; [|by apply IH].
    split; [apply length_row_text|apply row_text_no_newline].
Qed.

(** X22. [print] writes, after what was written before, the picture of the
    board, one line after the other, each followed by a newline.  The
    picture has [2 * height + 1] lines of [2 * width + 1] characters; the
    lines of even index are dashes; in the line of index [2 * i + 1] the
    characters of even index are bars and the character of index
    [2 * j + 1] is [X] when [board[i][j]] holds a mine and a space
    otherwise. *)
Theorem print_spec (g : Minesweeper.t) (out : list ascii) :
  Printing.print g out = out ++ unlines (picture g) ∧
  length (picture g) = (2 * Z.to_nat (Minesweeper.height g) + 1)%nat ∧
  (∀ l, l ∈ picture g →
        length l = (2 * Z.to_nat (Minesweeper.width g) + 1)%nat
        ∧ Printing.newline ∉ l) ∧
  (∀ i : nat, (i ≤ Z.to_nat (Minesweeper.height g))%nat →
        picture g !! (2 * i)%nat
        = Some (replicate (2 * Z.to_nat (Minesweeper.width g) + 1) "-"%char)) ∧
  (∀ i j : nat,
        (i < Z.to_nat (Minesweeper.height g))%nat →
        (j ≤ Z.to_nat (Minesweeper.width g))%nat →
        ∃ row, picture g !! (2 * i + 1)%nat = Some row ∧
               row !! (2 * j)%nat = Some "|"%char ∧
               ((j < Z.to_nat (Minesweeper.width g))%nat →
                row !! (2 * j + 1)%nat
                = Some (if Minesweeper.board_at g (Z.of_nat i) (Z.of_nat j)
                        then "X"%char else " "%char))).
Proof.
  split; [|split; [|split; [|split]]].
  - unfold Printing.print. rewrite print_rows, str_mul_dashes.
    unfold Printing.py_print, picture.
    rewrite unlines_app, unlines_cons. unfold separator.
    by rewrite <- !app_assoc.
  - unfold picture. rewrite length_app, (proj1 (picture_rows g 0)). simpl. lia.
  - apply picture_lines.
  - intros i Hi. unfold picture.
    destruct (picture_rows g i) as [Hlen Hrow].
    destruct (decide (i = Z.to_nat (Minesweeper.height g))) as [->|Hne].
    + rewrite lookup_app_r by lia. by rewrite Hlen, Nat.sub_diag.
    + rewrite lookup_app_l by lia. apply Hrow. lia.
  - intros i j Hi Hj. exists (row_text g (Z.of_nat i)).
    destruct (picture_rows g i) as [Hlen Hrow].
    destruct (row_cells g (Z.of_nat i) j) as [Hlenc Hcell].
    split; [|split].
    + unfold picture. rewrite lookup_app_l by lia. by apply Hrow.
    + unfold row_text.
      destruct (decide (j = Z.to_nat (Minesweeper.width g))) as [->|Hne].
      * rewrite lookup_app_r by lia. by rewrite Hlenc, Nat.sub_diag.
      * rewrite lookup_app_l by lia. apply Hcell. lia.
    + intros Hlt. unfold row_text. rewrite lookup_app_l by lia.
      by apply Hcell.
Qed.

Lemma update_knowledge_saturates_witness :
  saturated (knowledge one_open_sentence) ∧
  update_knowledge one_open_sentence = one_open_sentence.
Proof.
  assert (H : saturated (knowledge one_open_sentence)).
  { intros s Hs. apply list_elem_of_singleton in Hs. subst s.
    split; [|split].
    - apply (bool_decide_unpack _). vm_compute. exact I.
    - discriminate.
    - vm_compute. discriminate. }
  split; [exact H|].
  exact (proj2 (proj2 (proj2 (update_knowledge_saturates one_open_sentence))) H).
Defined.

Lemma print_spec_witness :
  (0 < Z.to_nat (Minesweeper.height board_2x3))%nat ∧
  (1 < Z.to_nat (Minesweeper.width board_2x3))%nat ∧
  ∃ row, picture board_2x3 !! 1%nat = Some row ∧ row !! 3%nat = Some "X"%char.
Proof.
  assert (Hi : (0 < Z.to_nat (Minesweeper.height board_2x3))%nat)
    by (simpl; lia).
  assert (Hj : (1 < Z.to_nat (Minesweeper.width board_2x3))%nat)
    by (simpl; lia).
  split; [exact Hi|]. split; [exact Hj|].
  destruct (proj2 (proj2 (proj2 (proj2 (print_spec board_2x3 []))))
              0%nat 1%nat Hi (Nat.lt_le_incl _ _ Hj))
    as (row & Hrow & _ & Hx).
  exists row. split; [exact Hrow|exact (Hx Hj)].
Defined.

(** * An observed cell off the grid: what the call does *)

(** Steps 1 to 3 of [add_knowledge] in terms of the cells around the
    observed cell: the new sentence, when there is one, holds the cells
    around it that lie on the grid and are neither in [mines] nor in
    [safes], with the count lowered by the number of cells around it that
    lie on the grid and are in [mines]. *)
Lemma observe_spec (a : AI) (c : Cell) (k : Z) :
  observe a c k
  = let marked := mark_safe (set_moves_made a ({[c]} ∪ moves_made a)) c in
    let new_cells :=
      filter (λ x, in_bounds (height a) (width a) x
                   ∧ (x ∉ mines a) ∧ (x ∉ safes a))
             (neighbors c) in
    let known_mines_count :=
      Z.of_nat (size (filter
        (λ x, in_bounds (height a) (width a) x ∧ x ∈ mines a)
        (neighbors c))) in
    if bool_decide (new_cells ≠ ∅)
    then set_knowledge marked
           (knowledge marked
            ++ [Sentence.mk new_cells (k - known_mines_count)])
    else marked.
Proof.
  rewrite observe_unfold. cbv zeta.
  set (a1 := mark_safe (set_moves_made a ({[c]} ∪ moves_made a)) c).
  destruct (neighbor_scan_chars a1 c) as [Hcells Hcount].
  assert (Hc : c ∉ neighbors c).
  { intros (d & _ & Hne & Hd)%elem_of_cells_at.
    destruct c, d; simpl in *. injection Hd as H1 H2.
    apply Hne. f_equal; lia. }
  assert (Hnc : (neighbor_scan a1 c).1
                = filter (λ x, in_bounds (height a) (width a) x
                               ∧ (x ∉ mines a) ∧ (x ∉ safes a))
                         (neighbors c)).
  { apply leibniz_equiv. intros x. rewrite Hcells, elem_of_filter.
    change (height a1) with (height a). change (width a1) with (width a).
    change (mines a1) with (mines a).
    change (safes a1) with ({[c]} ∪ safes a).
    rewrite elem_of_union, elem_of_singleton.
    split.
    - intros (Hn & Hb & Hm & Hs). tauto.
    - intros ((Hb & Hm & Hs) & Hn).
      split; [done|]. split; [done|]. split; [done|].
      intros [Hx|Hx]; [by subst|done]. }
  rewrite Hnc, Hcount. done.
Qed.

(** C2, amended. For an observed cell off the grid [add_knowledge] goes
    through as for any other cell.  The cell is added to [moves_made] and
    marked safe; a sentence is built from the cells around it that lie on
    the grid and are neither in [mines] nor in [safes] (the neighbours are
    clipped to the grid), with the count lowered by the number of cells
    around it, on the grid, that are in [mines], and is appended when it
    has a cell; then [update_knowledge] and [infer_new_sentences] run.  So
    the cell is in [moves_made] and in [safes] afterwards, nothing leaves
    [safes] or [mines], and the sentences still hold cells of the grid
    only. *)
Theorem add_knowledge_out_of_bounds (ai : AI) (c : Cell) (k : Z) :
  ¬ in_bounds (height ai) (width ai) c →
  let marked := mark_safe (set_moves_made ai ({[c]} ∪ moves_made ai)) c in
  let new_cells :=
    filter (λ x, in_bounds (height ai) (width ai) x
                 ∧ (x ∉ mines ai) ∧ (x ∉ safes ai))
           (neighbors c) in
  let known_mines_count :=
    Z.of_nat (size (filter
      (λ x, in_bounds (height ai) (width ai) x ∧ x ∈ mines ai)
      (neighbors c))) in
  add_knowledge ai c k
  = infer_new_sentences (update_knowledge
      (if bool_decide (new_cells ≠ ∅)
       then set_knowledge marked
              (knowledge marked
               ++ [Sentence.mk new_cells (k - known_mines_count)])
       else marked)) ∧
  moves_made (add_knowledge ai c k) = {[c]} ∪ moves_made ai ∧
  c ∈ safes (add_knowledge ai c k) ∧
  safes ai ⊆ safes (add_knowledge ai c k) ∧
  mines ai ⊆ mines (add_knowledge ai c k) ∧
  (kb_in_bounds ai → kb_in_bounds (add_knowledge ai c k)).
Proof.
  intros _ marked new_cells known_mines_count.
  split.
  { unfold add_knowledge. by rewrite observe_spec. }
  destruct (add_knowledge_sets ai c k) as (Hh & Hw & Hm & Hmi & Hs).
  repeat split; [done|set_solver|set_solver|done|].
  apply (apply_op_in_bounds ai (AddKnowledge c k)).
Qed.

(** The call with the cell [(-1, 0)] and count 1 on a new 2 by 2 engine:
    the sentence [{(0,0), (0,1)} = 1] is built from the two cells around
    it that lie on the grid. *)
Lemma add_knowledge_out_of_bounds_witness :
  ¬ in_bounds 2 2 (-1, 0) ∧
  add_knowledge (init 2 2) (-1, 0) 1
  = infer_new_sentences (update_knowledge
      (MinesweeperAI.mk 2 2 {[(-1, 0)]} ∅ {[(-1, 0)]} [example_A])) ∧
  example_A ∈ knowledge (add_knowledge (init 2 2) (-1, 0) 1) ∧
  (-1, 0) ∈ safes (add_knowledge (init 2 2) (-1, 0) 1).
Proof.
  assert (H : ¬ in_bounds (height (init 2 2)) (width (init 2 2)) (-1, 0)).
  { unfold in_bounds; simpl. lia. }
  split; [exact H|]. split; [|split].
  - rewrite (proj1 (add_knowledge_out_of_bounds (init 2 2) (-1, 0) 1 H)).
    vm_compute. reflexivity.
  - apply (bool_decide_unpack _). vm_compute. exact I.
  - exact (proj1 (proj2 (proj2
             (add_knowledge_out_of_bounds (init 2 2) (-1, 0) 1 H)))).
Defined.
